(** * FHEAMM: a shallow embedding of [contracts/FHEAMM.sol]

    The contract keeps encrypted positions, encrypted running aggregates,
    encrypted parameter suggestions, clear governance parameters and an audit
    trail of action digests.  Storage is a record, every external function is
    a computation in a state-and-revert monad, and the FHEVM library calls
    ([FHE.add], [FHE.allow], ...) are operations of that monad acting on a
    small model of the coprocessor (handle allocation and the access-control
    list).  Events are not part of the storage and are left out. *)

From stdpp Require Import gmap list fin_maps strings.

From Stdlib Require Import ZArith Lia Strings.Byte.

Open Scope Z_scope.

(** ** Machine integers and identities *)

(** Reduction of an integer to the range of a [uint32] / [euint32]. *)
Definition wrap32 (z : Z) : Z := z mod 4294967296.

Definition in_uint32 (z : Z) : Prop := 0 ≤ z < 4294967296.

(** An [address] is a 160-bit number. *)
Abbreviation address := N (only parsing).

(** ** The encrypted arithmetic domain *)

(** Modelled from the spec: the FHEVM library ([@fhevm/solidity]) is an
    external dependency.  Following spec sections 4.1 and 6, an encrypted
    integer is an opaque handle; the model keeps the plaintext beside the
    handle (as a test double would) so that decryption is the projection
    [clear].  Contract code never inspects [clear]; only the domain operations
    below do.  Handle [0] is the value of uninitialised storage. *)
Record euint32 : Type := { handle : N; clear : Z }.

Record ebool : Type := { bhandle : N; bclear : bool }.

(** An external ciphertext as it arrives in calldata. *)
Record externalEuint32 : Type := { ext_clear : Z }.

(** Modelled from the spec: the input proof is checked by the external input
    verifier; [verifies] is its verdict for this caller and contract. *)
Record bytes_calldata : Type := { verifies : bool }.

(** The content of a storage slot that was never written.  The library reads
    such an operand as an encryption of zero. *)
Definition uninitialized : euint32 := {| handle := 0; clear := 0 |}.

(** Modelled from the spec: the coprocessor hands out a distinct handle for
    every new encrypted value ("each new encrypted value is a distinct handle
    with its own access-control state") and records, per handle, the set of
    addresses allowed to use and decrypt it. *)
Record Coprocessor : Type := {
  next_handle : N;
  acl : gmap N (gset N)
}.

Definition allowed (c : Coprocessor) (h : N) : gset N :=
  default ∅ (acl c !! h).

(** ** Contract storage *)

Record Position : Type := {
  liquidity : euint32;
  priceLower : euint32;
  priceUpper : euint32;
  exists_ : bool
}.

(** A [bytes32] digest is kept symbolic: [keccak256] is the EVM hash applied
    to the packed bytes.  Nothing below looks inside a digest. *)
Inductive bytes32 : Type :=
| keccak256 (packed : list byte).

Record State : Type := {
  address_this : address;
  _owner : address;
  _positions : gmap N Position;
  _aggLiquidity : euint32;
  _sumPriceLower : euint32;
  _sumPriceUpper : euint32;
  _numPositions : euint32;
  _twoTimesNumPositions : euint32;
  _suggestedFeeRatio : euint32;
  _suggestedTickSpacing : euint32;
  appliedFeeRatio : Z;
  appliedTickSpacing : Z;
  _actionHashes : list bytes32;
  fhe : Coprocessor
}.

(** Storage writes, one per storage variable the contract assigns. *)
Definition set_positions (v : gmap N Position) (s : State) : State :=
  Build_State (address_this s) (_owner s) v (_aggLiquidity s) (_sumPriceLower s)
    (_sumPriceUpper s) (_numPositions s) (_twoTimesNumPositions s)
    (_suggestedFeeRatio s) (_suggestedTickSpacing s) (appliedFeeRatio s)
    (appliedTickSpacing s) (_actionHashes s) (fhe s).

Definition set_aggLiquidity (v : euint32) (s : State) : State :=
  Build_State (address_this s) (_owner s) (_positions s) v (_sumPriceLower s)
    (_sumPriceUpper s) (_numPositions s) (_twoTimesNumPositions s)
    (_suggestedFeeRatio s) (_suggestedTickSpacing s) (appliedFeeRatio s)
    (appliedTickSpacing s) (_actionHashes s) (fhe s).

Definition set_sumPriceLower (v : euint32) (s : State) : State :=
  Build_State (address_this s) (_owner s) (_positions s) (_aggLiquidity s) v
    (_sumPriceUpper s) (_numPositions s) (_twoTimesNumPositions s)
    (_suggestedFeeRatio s) (_suggestedTickSpacing s) (appliedFeeRatio s)
    (appliedTickSpacing s) (_actionHashes s) (fhe s).

Definition set_sumPriceUpper (v : euint32) (s : State) : State :=
  Build_State (address_this s) (_owner s) (_positions s) (_aggLiquidity s)
    (_sumPriceLower s) v (_numPositions s) (_twoTimesNumPositions s)
    (_suggestedFeeRatio s) (_suggestedTickSpacing s) (appliedFeeRatio s)
    (appliedTickSpacing s) (_actionHashes s) (fhe s).

Definition set_numPositions (v : euint32) (s : State) : State :=
  Build_State (address_this s) (_owner s) (_positions s) (_aggLiquidity s)
    (_sumPriceLower s) (_sumPriceUpper s) v (_twoTimesNumPositions s)
    (_suggestedFeeRatio s) (_suggestedTickSpacing s) (appliedFeeRatio s)
    (appliedTickSpacing s) (_actionHashes s) (fhe s).

Definition set_twoTimesNumPositions (v : euint32) (s : State) : State :=
  Build_State (address_this s) (_owner s) (_positions s) (_aggLiquidity s)
    (_sumPriceLower s) (_sumPriceUpper s) (_numPositions s) v
    (_suggestedFeeRatio s) (_suggestedTickSpacing s) (appliedFeeRatio s)
    (appliedTickSpacing s) (_actionHashes s) (fhe s).

Definition set_suggestedFeeRatio (v : euint32) (s : State) : State :=
  Build_State (address_this s) (_owner s) (_positions s) (_aggLiquidity s)
    (_sumPriceLower s) (_sumPriceUpper s) (_numPositions s)
    (_twoTimesNumPositions s) v (_suggestedTickSpacing s) (appliedFeeRatio s)
    (appliedTickSpacing s) (_actionHashes s) (fhe s).

Definition set_suggestedTickSpacing (v : euint32) (s : State) : State :=
  Build_State (address_this s) (_owner s) (_positions s) (_aggLiquidity s)
    (_sumPriceLower s) (_sumPriceUpper s) (_numPositions s)
    (_twoTimesNumPositions s) (_suggestedFeeRatio s) v (appliedFeeRatio s)
    (appliedTickSpacing s) (_actionHashes s) (fhe s).

Definition set_appliedFeeRatio (v : Z) (s : State) : State :=
  Build_State (address_this s) (_owner s) (_positions s) (_aggLiquidity s)
    (_sumPriceLower s) (_sumPriceUpper s) (_numPositions s)
    (_twoTimesNumPositions s) (_suggestedFeeRatio s) (_suggestedTickSpacing s)
    v (appliedTickSpacing s) (_actionHashes s) (fhe s).

Definition set_appliedTickSpacing (v : Z) (s : State) : State :=
  Build_State (address_this s) (_owner s) (_positions s) (_aggLiquidity s)
    (_sumPriceLower s) (_sumPriceUpper s) (_numPositions s)
    (_twoTimesNumPositions s) (_suggestedFeeRatio s) (_suggestedTickSpacing s)
    (appliedFeeRatio s) v (_actionHashes s) (fhe s).

Definition set_actionHashes (v : list bytes32) (s : State) : State :=
  Build_State (address_this s) (_owner s) (_positions s) (_aggLiquidity s)
    (_sumPriceLower s) (_sumPriceUpper s) (_numPositions s)
    (_twoTimesNumPositions s) (_suggestedFeeRatio s) (_suggestedTickSpacing s)
    (appliedFeeRatio s) (appliedTickSpacing s) v (fhe s).

Definition set_fhe (v : Coprocessor) (s : State) : State :=
  Build_State (address_this s) (_owner s) (_positions s) (_aggLiquidity s)
    (_sumPriceLower s) (_sumPriceUpper s) (_numPositions s)
    (_twoTimesNumPositions s) (_suggestedFeeRatio s) (_suggestedTickSpacing s)
    (appliedFeeRatio s) (appliedTickSpacing s) (_actionHashes s) v.

(** The write to [_owner], the storage variable of the inherited [Ownable]. *)
Definition set_owner (v : address) (s : State) : State :=
  Build_State (address_this s) v (_positions s) (_aggLiquidity s)
    (_sumPriceLower s) (_sumPriceUpper s) (_numPositions s)
    (_twoTimesNumPositions s) (_suggestedFeeRatio s) (_suggestedTickSpacing s)
    (appliedFeeRatio s) (appliedTickSpacing s) (_actionHashes s) (fhe s).

(** ** Execution monad: storage threaded through, revert as an error *)

(** The three failures of spec section 7 (in the EVM: the revert of the
    input verifier, [OwnableUnauthorizedAccount], and the array out-of-bounds
    panic), and [OwnableInvalidOwner] of the inherited [Ownable]. *)
Inductive Error : Type :=
| InvalidCiphertextProof
| Unauthorized
| IndexOutOfRange
| InvalidOwner.

Inductive Result (A : Type) : Type :=
| Ok (a : A)
| Err (e : Error).

Arguments Ok {A} a.

Arguments Err {A} e.

Definition M (A : Type) : Type := State → Result (A * State).

#[global] Instance M_ret : MRet M := λ A a s, Ok (a, s).

#[global] Instance M_bind : MBind M := λ A B f m s,
  match m s with
  | Ok (a, s') => f a s'
  | Err e => Err e
  end.

Definition revert {A : Type} (e : Error) : M A := λ _, Err e.

Definition sload {A : Type} (field : State → A) : M A := λ s, Ok (field s, s).

Definition sstore (update : State → State) : M unit := λ s, Ok (tt, update s).

(** Transaction context: [msg.sender] and [block.timestamp]. *)
Record Msg : Type := { msg_sender : address; block_timestamp : Z }.

(** ** Operations of the encrypted domain (spec section 6) *)

(** Modelled from the spec: allocation of the next unused handle by the
    coprocessor, which is not part of the sources. *)
Definition fresh_handle : M N := λ s,
  let c := fhe s in
  Ok (next_handle c,
      set_fhe {| next_handle := N.succ (next_handle c); acl := acl c |} s).

(** Modelled from the spec: [liftConstant], the library's [FHE.asEuint32],
    a trivial encryption of a clear constant. *)
Definition FHE_asEuint32 (value : Z) : M euint32 :=
  h ← fresh_handle; mret {| handle := h; clear := value |}.

(** Modelled from the spec: [importExternal], the library's
    [FHE.fromExternal]; it fails when the verifier rejects the proof. *)
Definition FHE_fromExternal (input : externalEuint32) (inputProof : bytes_calldata)
  : M euint32 :=
  if verifies inputProof
  then h ← fresh_handle; mret {| handle := h; clear := ext_clear input |}
  else revert InvalidCiphertextProof.

(** Modelled from the spec: [add] and [sub], the library's [FHE.add] and
    [FHE.sub] on [euint32]: arithmetic modulo [2^32] on the plaintexts, the
    result under a new handle. *)
Definition FHE_add (a b : euint32) : M euint32 :=
  h ← fresh_handle; mret {| handle := h; clear := wrap32 (clear a + clear b) |}.

Definition FHE_sub (a b : euint32) : M euint32 :=
  h ← fresh_handle; mret {| handle := h; clear := wrap32 (clear a - clear b) |}.

(** Modelled from the spec: [greaterOrEqual], the library's [FHE.ge]. *)
Definition FHE_ge (a b : euint32) : M ebool :=
  h ← fresh_handle; mret {| bhandle := h; bclear := clear b <=? clear a |}.

(** Modelled from the spec: [select], the library's [FHE.select].  Both
    operands are already computed by the caller; the encrypted selector picks
    which plaintext the new handle carries. *)
Definition FHE_select (c : ebool) (a b : euint32) : M euint32 :=
  h ← fresh_handle;
  mret {| handle := h; clear := if bclear c then clear a else clear b |}.

Definition acl_grant (h : N) (account : address) (m : gmap N (gset N))
  : gmap N (gset N) :=
  <[h := {[account]} ∪ default ∅ (m !! h)]> m.

Definition grant (h : N) (account : address) (c : Coprocessor) : Coprocessor :=
  {| next_handle := next_handle c; acl := acl_grant h account (acl c) |}.

(** Modelled from the spec: [authorizeReader], the library's [FHE.allow]. *)
Definition FHE_allow (e : euint32) (account : address) : M unit :=
  sstore (λ s, set_fhe (grant (handle e) account (fhe s)) s).

(** Modelled from the spec: [authorizeSelf], the library's [FHE.allowThis]. *)
Definition FHE_allowThis (e : euint32) : M unit :=
  this ← sload address_this; FHE_allow e this.

(** ** The contract *)

Definition empty_position : Position :=
  {| liquidity := uninitialized; priceLower := uninitialized;
     priceUpper := uninitialized; exists_ := false |}.

(** [_positions[a]]: a Solidity mapping reads as the zero value where nothing
    was stored. *)
Definition position_at (m : gmap N Position) (a : address) : Position :=
  default empty_position (m !! a).

(** Reads and writes through the storage pointer
    [Position storage p = _positions[msg.sender]]. *)
Definition p_load {A : Type} (a : address) (field : Position → A) : M A :=
  sload (λ s, field (position_at (_positions s) a)).

Definition p_store (a : address) (update : Position → Position) : M unit :=
  sstore (λ s,
    set_positions (<[a := update (position_at (_positions s) a)]> (_positions s)) s).

Definition with_liquidity (v : euint32) (p : Position) : Position :=
  {| liquidity := v; priceLower := priceLower p; priceUpper := priceUpper p;
     exists_ := exists_ p |}.

Definition with_priceLower (v : euint32) (p : Position) : Position :=
  {| liquidity := liquidity p; priceLower := v; priceUpper := priceUpper p;
     exists_ := exists_ p |}.

Definition with_priceUpper (v : euint32) (p : Position) : Position :=
  {| liquidity := liquidity p; priceLower := priceLower p; priceUpper := v;
     exists_ := exists_ p |}.

Definition with_exists (v : bool) (p : Position) : Position :=
  {| liquidity := liquidity p; priceLower := priceLower p;
     priceUpper := priceUpper p; exists_ := v |}.

(** Modelled from the spec: OpenZeppelin's [Ownable] is not part of the
    sources.  [owner()] reads the governance identity set by the
    constructor. *)
Definition owner : M address := sload _owner.

(** Modelled from the spec: the [onlyOwner] modifier of [Ownable]; a call by
    any other identity fails with [Unauthorized]. *)
Definition onlyOwner (msg : Msg) : M unit :=
  o ← owner;
  if decide (o = msg_sender msg) then mret tt else revert Unauthorized.

(** *** [abi.encodePacked(string, address, uint256)] *)

Definition byte_of_Z (z : Z) : byte :=
  default x00 (Byte.of_N (Z.to_N (z mod 256))).

(** Big-endian encoding on [n] bytes. *)
Fixpoint be_bytes (n : nat) (z : Z) : list byte :=
  match n with
  | O => []
  | S k => be_bytes k (z / 256) ++ [byte_of_Z z]
  end.

Definition abi_encodePacked (action : string) (sender : address) (timestamp : Z)
  : list byte :=
  String.list_byte_of_string action
    ++ be_bytes 20 (Z.of_N sender) ++ be_bytes 32 timestamp.

Definition action_digest (action : string) (sender : address) (timestamp : Z)
  : bytes32 :=
  keccak256 (abi_encodePacked action sender timestamp).

Definition _pushAction (msg : Msg) (action : string) : M unit :=
  let h := action_digest action (msg_sender msg) (block_timestamp msg) in
  hashes ← sload _actionHashes;
  sstore (set_actionHashes (hashes ++ [h])).

(** *** Constructor *)

(** Storage of a contract at address [this] before its constructor runs. *)
Definition blank (this : address) : State :=
  {| address_this := this; _owner := 0%N; _positions := ∅;
     _aggLiquidity := uninitialized; _sumPriceLower := uninitialized;
     _sumPriceUpper := uninitialized; _numPositions := uninitialized;
     _twoTimesNumPositions := uninitialized;
     _suggestedFeeRatio := uninitialized; _suggestedTickSpacing := uninitialized;
     appliedFeeRatio := 0; appliedTickSpacing := 0; _actionHashes := [];
     fhe := {| next_handle := 1; acl := ∅ |} |}.

(** The deployer becomes the owner ([Ownable(msg.sender)]); the sender of a
    deployment is an account, never the zero address that [Ownable]'s
    constructor refuses. *)
Definition constructor (msg : Msg) : M unit :=
  (* Ownable(msg.sender) *)
  sstore (set_owner (msg_sender msg));;
  z ← FHE_asEuint32 0; sstore (set_suggestedFeeRatio z);;
  z ← FHE_asEuint32 0; sstore (set_suggestedTickSpacing z);;
  fee ← sload _suggestedFeeRatio; FHE_allowThis fee;;
  tick ← sload _suggestedTickSpacing; FHE_allowThis tick.

(** *** Position submit/update *)

Definition submitPosition (msg : Msg)
    (encLiquidity encPriceLower encPriceUpper : externalEuint32)
    (inputProof : bytes_calldata) : M unit :=
  let sender := msg_sender msg in
  liq ← FHE_fromExternal encLiquidity inputProof;
  pl ← FHE_fromExternal encPriceLower inputProof;
  pu ← FHE_fromExternal encPriceUpper inputProof;
  p_exists ← p_load sender exists_;
  (if p_exists : bool then
     (* remove the previous contribution from the aggregates *)
     a ← sload _aggLiquidity; old ← p_load sender liquidity;
     r ← FHE_sub a old; sstore (set_aggLiquidity r);;
     a ← sload _sumPriceLower; old ← p_load sender priceLower;
     r ← FHE_sub a old; sstore (set_sumPriceLower r);;
     a ← sload _sumPriceUpper; old ← p_load sender priceUpper;
     r ← FHE_sub a old; sstore (set_sumPriceUpper r)
   else
     (* first-time user *)
     n ← sload _numPositions; one ← FHE_asEuint32 1;
     r ← FHE_add n one; sstore (set_numPositions r);;
     n ← sload _numPositions; FHE_allowThis n;;
     n ← sload _numPositions; FHE_allow n sender;;
     n ← sload _numPositions; o ← owner; FHE_allow n o;;
     t ← sload _twoTimesNumPositions; two ← FHE_asEuint32 2;
     r ← FHE_add t two; sstore (set_twoTimesNumPositions r);;
     t ← sload _twoTimesNumPositions; FHE_allowThis t;;
     t ← sload _twoTimesNumPositions; FHE_allow t sender;;
     t ← sload _twoTimesNumPositions; o ← owner; FHE_allow t o);;
  (* update aggregates with the new values *)
  a ← sload _aggLiquidity; r ← FHE_add a liq; sstore (set_aggLiquidity r);;
  a ← sload _sumPriceLower; r ← FHE_add a pl; sstore (set_sumPriceLower r);;
  a ← sload _sumPriceUpper; r ← FHE_add a pu; sstore (set_sumPriceUpper r);;
  (* save the position *)
  p_store sender (with_liquidity liq);;
  p_store sender (with_priceLower pl);;
  p_store sender (with_priceUpper pu);;
  p_store sender (with_exists true);;
  (* allow decrypt (contract, sender, owner) *)
  a ← sload _aggLiquidity; FHE_allowThis a;;
  a ← sload _sumPriceLower; FHE_allowThis a;;
  a ← sload _sumPriceUpper; FHE_allowThis a;;
  a ← sload _aggLiquidity; FHE_allow a sender;;
  a ← sload _sumPriceLower; FHE_allow a sender;;
  a ← sload _sumPriceUpper; FHE_allow a sender;;
  a ← sload _aggLiquidity; o ← owner; FHE_allow a o;;
  a ← sload _sumPriceLower; o ← owner; FHE_allow a o;;
  a ← sload _sumPriceUpper; o ← owner; FHE_allow a o;;
  x ← p_load sender liquidity; FHE_allowThis x;;
  x ← p_load sender priceLower; FHE_allowThis x;;
  x ← p_load sender priceUpper; FHE_allowThis x;;
  x ← p_load sender liquidity; FHE_allow x sender;;
  x ← p_load sender priceLower; FHE_allow x sender;;
  x ← p_load sender priceUpper; FHE_allow x sender;;
  x ← p_load sender liquidity; o ← owner; FHE_allow x o;;
  x ← p_load sender priceLower; o ← owner; FHE_allow x o;;
  x ← p_load sender priceUpper; o ← owner; FHE_allow x o;;
  (* audit trail *)
  _pushAction msg "SUBMIT_POSITION".

(** *** Volatility-driven suggestion update *)

Definition submitVolatility (msg : Msg) (encVolatility : externalEuint32)
    (inputProof : bytes_calldata) : M unit :=
  let sender := msg_sender msg in
  vol ← FHE_fromExternal encVolatility inputProof;
  threshold ← FHE_asEuint32 50;
  delta ← FHE_asEuint32 1;
  ge ← FHE_ge vol threshold;
  (* fee' = ge ? fee + delta : fee *)
  fee ← sload _suggestedFeeRatio; bumped ← FHE_add fee delta;
  fee ← sload _suggestedFeeRatio; r ← FHE_select ge bumped fee;
  sstore (set_suggestedFeeRatio r);;
  (* tickSpacing' = ge ? tickSpacing + delta : tickSpacing *)
  tick ← sload _suggestedTickSpacing; bumped ← FHE_add tick delta;
  tick ← sload _suggestedTickSpacing; r ← FHE_select ge bumped tick;
  sstore (set_suggestedTickSpacing r);;
  (* allow decrypt (contract, sender, owner) *)
  x ← sload _suggestedFeeRatio; FHE_allowThis x;;
  x ← sload _suggestedTickSpacing; FHE_allowThis x;;
  x ← sload _suggestedFeeRatio; FHE_allow x sender;;
  x ← sload _suggestedTickSpacing; FHE_allow x sender;;
  x ← sload _suggestedFeeRatio; o ← owner; FHE_allow x o;;
  x ← sload _suggestedTickSpacing; o ← owner; FHE_allow x o;;
  _pushAction msg "SUBMIT_VOLATILITY".

(** *** Views *)

Definition getAggregates : M (euint32 * euint32 * euint32 * euint32) :=
  a ← sload _aggLiquidity; l ← sload _sumPriceLower;
  u ← sload _sumPriceUpper; t ← sload _twoTimesNumPositions;
  mret (a, l, u, t).

Definition getSuggestions : M (euint32 * euint32) :=
  f ← sload _suggestedFeeRatio; t ← sload _suggestedTickSpacing; mret (f, t).

Definition getMyPosition (msg : Msg) : M (euint32 * euint32 * euint32 * bool) :=
  let sender := msg_sender msg in
  l ← p_load sender liquidity; lo ← p_load sender priceLower;
  up ← p_load sender priceUpper; e ← p_load sender exists_;
  mret (l, lo, up, e).

(** *** Governance *)

Definition applyParameters (msg : Msg) (feeRatioClear tickSpacingClear : Z)
  : M unit :=
  onlyOwner msg;;
  sstore (set_appliedFeeRatio feeRatioClear);;
  sstore (set_appliedTickSpacing tickSpacingClear);;
  _pushAction msg "APPLY_PARAMETERS".

(** *** Ownership *)

(** Modelled from the spec: the contract is declared
    [contract FHEAMM is ZamaEthereumConfig, Ownable], so the two external
    functions of OpenZeppelin's [Ownable] (not part of the sources) are entry
    points of the deployed contract.  [transferOwnership] hands the
    governance identity over to another, non-zero address and
    [renounceOwnership] leaves the contract without one; both are restricted
    to the current owner and neither appends to the audit trail. *)
Definition transferOwnership (msg : Msg) (newOwner : address) : M unit :=
  onlyOwner msg;;
  if decide (newOwner = 0%N) then revert InvalidOwner
  else sstore (set_owner newOwner).

Definition renounceOwnership (msg : Msg) : M unit :=
  onlyOwner msg;;
  sstore (set_owner 0%N).

(** *** Audit trail *)

Definition getActionsLength : M Z :=
  hashes ← sload _actionHashes; mret (Z.of_nat (length hashes)).

(** Indexing a storage array past its end reverts. *)
Definition getActionAt (index : N) : M bytes32 :=
  hashes ← sload _actionHashes;
  match hashes !! N.to_nat index with
  | Some h => mret h
  | None => revert IndexOutOfRange
  end.

(** ** Transactions and executions *)

(** The state-changing entry points of the contract: the three functions
    of [FHEAMM.sol] and the two it inherits from [Ownable]. *)
Inductive Call : Type :=
| SubmitPosition (encLiquidity encPriceLower encPriceUpper : externalEuint32)
    (inputProof : bytes_calldata)
| SubmitVolatility (encVolatility : externalEuint32) (inputProof : bytes_calldata)
| ApplyParameters (feeRatioClear tickSpacingClear : Z)
| TransferOwnership (newOwner : address)
| RenounceOwnership.

Record Tx : Type := { tx_msg : Msg; tx_call : Call }.

Definition dispatch (tx : Tx) : M unit :=
  match tx_call tx with
  | SubmitPosition l lo up pf => submitPosition (tx_msg tx) l lo up pf
  | SubmitVolatility v pf => submitVolatility (tx_msg tx) v pf
  | ApplyParameters f t => applyParameters (tx_msg tx) f t
  | TransferOwnership newOwner => transferOwnership (tx_msg tx) newOwner
  | RenounceOwnership => renounceOwnership (tx_msg tx)
  end.

(** A call either completes or reverts; a revert discards every effect. *)
Definition exec (s : State) (tx : Tx) : Result State :=
  match dispatch tx s with
  | Ok (_, s') => Ok s'
  | Err e => Err e
  end.

Definition succeeds (s : State) (tx : Tx) : bool :=
  match exec s tx with Ok _ => true | Err _ => false end.

Definition step (s : State) (tx : Tx) : State :=
  match exec s tx with Ok s' => s' | Err _ => s end.

Definition run (s : State) (txs : list Tx) : State := foldl step s txs.

(** The transactions of [txs] that completed, in order. *)
Fixpoint completed (s : State) (txs : list Tx) : list Tx :=
  match txs with
  | [] => []
  | tx :: rest =>
      if succeeds s tx then tx :: completed (step s tx) rest
      else completed (step s tx) rest
  end.

(** The contract right after deployment at [this] by [deployer]. *)
Definition deploy (this deployer : address) : State :=
  match constructor {| msg_sender := deployer; block_timestamp := 0 |} (blank this) with
  | Ok (_, s) => s
  | Err _ => blank this
  end.

Arguments deploy (this deployer)%_N.

Inductive reachable : State → Prop :=
| reachable_deploy this deployer : reachable (deploy this deployer)
| reachable_step s tx : reachable s → reachable (step s tx).

(** Calldata that decodes: a [uint32] argument and the plaintext of a
    32-bit ciphertext lie in [0, 2^32). *)
Definition wf_call (c : Call) : Prop :=
  match c with
  | SubmitPosition l lo up _ =>
      in_uint32 (ext_clear l) ∧ in_uint32 (ext_clear lo) ∧ in_uint32 (ext_clear up)
  | SubmitVolatility v _ => in_uint32 (ext_clear v)
  | ApplyParameters f t => in_uint32 f ∧ in_uint32 t
  | TransferOwnership _ | RenounceOwnership => True
  end.

(** *** Decrypted views used in the statements *)

(** Sum of a decrypted field over the identities whose position exists. *)
Definition sum_existing (field : Position → euint32) (m : gmap N Position) : Z :=
  map_fold (λ _ p acc, if exists_ p then clear (field p) + acc else acc) 0 m.

(** The tag under which a call is recorded in the audit trail; the two
    ownership functions push no entry. *)
Definition action_tag (c : Call) : option string :=
  match c with
  | SubmitPosition _ _ _ _ => Some "SUBMIT_POSITION"
  | SubmitVolatility _ _ => Some "SUBMIT_VOLATILITY"
  | ApplyParameters _ _ => Some "APPLY_PARAMETERS"
  | TransferOwnership _ | RenounceOwnership => None
  end.

(** The audit entry of a call that is recorded. *)
Definition tx_digest (tx : Tx) : option bytes32 :=
  match action_tag (tx_call tx) with
  | Some tag =>
      Some (action_digest tag (msg_sender (tx_msg tx))
              (block_timestamp (tx_msg tx)))
  | None => None
  end.

(** A call of one of the three operations that write to the audit trail. *)
Definition recorded (tx : Tx) : Prop := is_Some (action_tag (tx_call tx)).

#[global] Instance recorded_dec (tx : Tx) : Decision (recorded tx) :=
  is_Some_dec _.

(** *** The governance identity along an execution *)

(** The new owner a call of one of the two ownership functions asks for, if
    [Ownable] accepts it from the owner. *)
Definition ownership_call (c : Call) : option address :=
  match c with
  | TransferOwnership newOwner =>
      if decide (newOwner = 0%N) then None else Some newOwner
  | RenounceOwnership => Some 0%N
  | _ => None
  end.

(** The owner after a call, [o] being the owner before it. *)
Definition next_owner (o : address) (tx : Tx) : address :=
  match ownership_call (tx_call tx) with
  | Some o' => if decide (msg_sender (tx_msg tx) = o) then o' else o
  | None => o
  end.

Definition owner_after (o : address) (txs : list Tx) : address :=
  foldl next_owner o txs.

(** *** Transactions with an accepted proof, and the scenario of the spec *)

Definition mkSubmit (who : address) (time l lo up : Z) : Tx :=
  {| tx_msg := {| msg_sender := who; block_timestamp := time |};
     tx_call := SubmitPosition {| ext_clear := l |} {| ext_clear := lo |}
                  {| ext_clear := up |} {| verifies := true |} |}.

Definition mkVolatility (who : address) (time v : Z) : Tx :=
  {| tx_msg := {| msg_sender := who; block_timestamp := time |};
     tx_call := SubmitVolatility {| ext_clear := v |} {| verifies := true |} |}.

Definition mkApply (who : address) (time f t : Z) : Tx :=
  {| tx_msg := {| msg_sender := who; block_timestamp := time |};
     tx_call := ApplyParameters f t |}.

Definition mkTransfer (who : address) (time : Z) (newOwner : address) : Tx :=
  {| tx_msg := {| msg_sender := who; block_timestamp := time |};
     tx_call := TransferOwnership newOwner |}.

Definition mkRenounce (who : address) (time : Z) : Tx :=
  {| tx_msg := {| msg_sender := who; block_timestamp := time |};
     tx_call := RenounceOwnership |}.

Arguments mkSubmit who%_N (time l lo up)%_Z.

Arguments mkVolatility who%_N (time v)%_Z.

Arguments mkApply who%_N (time f t)%_Z.

Arguments mkTransfer who%_N time%_Z newOwner%_N.

Arguments mkRenounce who%_N time%_Z.

Definition scenario : State :=
  run (deploy 1000 1)
    [mkSubmit 7 10 10 100 200; mkSubmit 7 11 15 90 210;
     mkVolatility 8 12 60; mkApply 1 13 5 10].

(** * Vocabulary of the statements *)

(** What a position contributes to a running sum. *)
Definition contribution (field : Position → euint32) (p : Position) : Z :=
  if exists_ p then clear (field p) else 0.

(** The three parties of the authorization rule: the contract, the caller
    and the governance identity. *)
Definition three_parties (s : State) (sender : address) : gset N :=
  {[address_this s]} ∪ {[sender]} ∪ {[_owner s]}.

(** Every handle with an access-control entry has been allocated. *)
Definition acl_allocated (c : Coprocessor) : Prop :=
  ∀ h, is_Some (acl c !! h) → (h < next_handle c)%N.

(** The running sum once the caller's previous contribution is taken out. *)
Definition without (field : Position → euint32) (sum : euint32) (p : Position)
  : Z :=
  if exists_ p then wrap32 (clear sum - clear (field p)) else clear sum.

(** Everything a completed [submitPosition] does to the storage. *)
Record submitPosition_effect (msg : Msg) (l lo up : externalEuint32)
    (s s' : State) : Prop := {
  spe_this : address_this s' = address_this s;
  spe_owner : _owner s' = _owner s;
  spe_positions :
    _positions s'
    = <[msg_sender msg :=
          {| liquidity := {| handle := next_handle (fhe s); clear := ext_clear l |};
             priceLower := {| handle := next_handle (fhe s) + 1;
                              clear := ext_clear lo |};
             priceUpper := {| handle := next_handle (fhe s) + 2;
                              clear := ext_clear up |};
             exists_ := true |}]> (_positions s);
  spe_aggLiquidity :
    clear (_aggLiquidity s')
    = wrap32 (without liquidity (_aggLiquidity s)
                (position_at (_positions s) (msg_sender msg)) + ext_clear l);
  spe_sumPriceLower :
    clear (_sumPriceLower s')
    = wrap32 (without priceLower (_sumPriceLower s)
                (position_at (_positions s) (msg_sender msg)) + ext_clear lo);
  spe_sumPriceUpper :
    clear (_sumPriceUpper s')
    = wrap32 (without priceUpper (_sumPriceUpper s)
                (position_at (_positions s) (msg_sender msg)) + ext_clear up);
  spe_numPositions :
    _numPositions s'
    = if exists_ (position_at (_positions s) (msg_sender msg))
      then _numPositions s
      else {| handle := next_handle (fhe s) + 4;
              clear := wrap32 (clear (_numPositions s) + 1) |};
  spe_twoTimesNumPositions :
    _twoTimesNumPositions s'
    = if exists_ (position_at (_positions s) (msg_sender msg))
      then _twoTimesNumPositions s
      else {| handle := next_handle (fhe s) + 6;
              clear := wrap32 (clear (_twoTimesNumPositions s) + 2) |};
  spe_suggestedFeeRatio : _suggestedFeeRatio s' = _suggestedFeeRatio s;
  spe_suggestedTickSpacing : _suggestedTickSpacing s' = _suggestedTickSpacing s;
  spe_appliedFeeRatio : appliedFeeRatio s' = appliedFeeRatio s;
  spe_appliedTickSpacing : appliedTickSpacing s' = appliedTickSpacing s;
  spe_actionHashes :
    _actionHashes s'
    = _actionHashes s
      ++ [action_digest "SUBMIT_POSITION" (msg_sender msg) (block_timestamp msg)];
  spe_next_handle :
    next_handle (fhe s')
    = (next_handle (fhe s)
       + if exists_ (position_at (_positions s) (msg_sender msg)) then 9 else 10)%N;
  spe_sum_handles :
    handle (_aggLiquidity s') = (next_handle (fhe s') - 3)%N
    ∧ handle (_sumPriceLower s') = (next_handle (fhe s') - 2)%N
    ∧ handle (_sumPriceUpper s') = (next_handle (fhe s') - 1)%N;
  spe_acl_stored :
    ∀ h, h ∈ [handle (_aggLiquidity s'); handle (_sumPriceLower s');
              handle (_sumPriceUpper s'); next_handle (fhe s);
              next_handle (fhe s) + 1; next_handle (fhe s) + 2]%N →
      allowed (fhe s') h = three_parties s (msg_sender msg) ∪ allowed (fhe s) h;
  spe_acl_counters :
    exists_ (position_at (_positions s) (msg_sender msg)) = false →
    ∀ h, h ∈ [next_handle (fhe s) + 4; next_handle (fhe s) + 6]%N →
      allowed (fhe s') h = three_parties s (msg_sender msg) ∪ allowed (fhe s) h;
  spe_acl_old :
    ∀ h, (h < next_handle (fhe s))%N → allowed (fhe s') h = allowed (fhe s) h;
  spe_acl_dom :
    ∀ h, is_Some (acl (fhe s') !! h) →
      is_Some (acl (fhe s) !! h) ∨ (h < next_handle (fhe s'))%N;
  spe_acl_other :
    ∀ h, h ∉ ([handle (_aggLiquidity s'); handle (_sumPriceLower s');
               handle (_sumPriceUpper s'); next_handle (fhe s);
               next_handle (fhe s) + 1; next_handle (fhe s) + 2]
              ++ if exists_ (position_at (_positions s) (msg_sender msg))
                 then []
                 else [next_handle (fhe s) + 4; next_handle (fhe s) + 6])%N →
      allowed (fhe s') h = allowed (fhe s) h
}.

(** Everything a completed [submitVolatility] does to the storage. *)
Record submitVolatility_effect (msg : Msg) (v : externalEuint32)
    (s s' : State) : Prop := {
  sve_this : address_this s' = address_this s;
  sve_owner : _owner s' = _owner s;
  sve_positions : _positions s' = _positions s;
  sve_aggLiquidity : _aggLiquidity s' = _aggLiquidity s;
  sve_sumPriceLower : _sumPriceLower s' = _sumPriceLower s;
  sve_sumPriceUpper : _sumPriceUpper s' = _sumPriceUpper s;
  sve_numPositions : _numPositions s' = _numPositions s;
  sve_twoTimesNumPositions : _twoTimesNumPositions s' = _twoTimesNumPositions s;
  sve_suggestedFeeRatio :
    _suggestedFeeRatio s'
    = {| handle := next_handle (fhe s) + 5;
         clear := if 50 <=? ext_clear v
                  then wrap32 (clear (_suggestedFeeRatio s) + 1)
                  else clear (_suggestedFeeRatio s) |};
  sve_suggestedTickSpacing :
    _suggestedTickSpacing s'
    = {| handle := next_handle (fhe s) + 7;
         clear := if 50 <=? ext_clear v
                  then wrap32 (clear (_suggestedTickSpacing s) + 1)
                  else clear (_suggestedTickSpacing s) |};
  sve_appliedFeeRatio : appliedFeeRatio s' = appliedFeeRatio s;
  sve_appliedTickSpacing : appliedTickSpacing s' = appliedTickSpacing s;
  sve_actionHashes :
    _actionHashes s'
    = _actionHashes s
      ++ [action_digest "SUBMIT_VOLATILITY" (msg_sender msg) (block_timestamp msg)];
  sve_next_handle : next_handle (fhe s') = (next_handle (fhe s) + 8)%N;
  sve_acl_stored :
    ∀ h, h ∈ [next_handle (fhe s) + 5; next_handle (fhe s) + 7]%N →
      allowed (fhe s') h = three_parties s (msg_sender msg) ∪ allowed (fhe s) h;
  sve_acl_old :
    ∀ h, (h < next_handle (fhe s))%N → allowed (fhe s') h = allowed (fhe s) h;
  sve_acl_dom :
    ∀ h, is_Some (acl (fhe s') !! h) →
      is_Some (acl (fhe s) !! h) ∨ (h < next_handle (fhe s'))%N;
  sve_acl_other :
    ∀ h, h ∉ [next_handle (fhe s) + 5; next_handle (fhe s) + 7]%N →
      allowed (fhe s') h = allowed (fhe s) h
}.

(** ** One transaction *)

(** The possible outcomes of a transaction: a revert that leaves the storage
    as it was, the completion of one of the three operations, or a change of
    owner. *)
Inductive outcome (s : State) (tx : Tx) : State → Prop :=
| outcome_reverted e :
    exec s tx = Err e → outcome s tx s
| outcome_position l lo up pf s' :
    tx_call tx = SubmitPosition l lo up pf → verifies pf = true →
    exec s tx = Ok s' →
    submitPosition_effect (tx_msg tx) l lo up s s' → outcome s tx s'
| outcome_volatility v pf s' :
    tx_call tx = SubmitVolatility v pf → verifies pf = true →
    exec s tx = Ok s' →
    submitVolatility_effect (tx_msg tx) v s s' → outcome s tx s'
| outcome_applied f t s' :
    tx_call tx = ApplyParameters f t → msg_sender (tx_msg tx) = _owner s →
    exec s tx = Ok s' →
    s' = set_actionHashes
           (_actionHashes s
            ++ [action_digest "APPLY_PARAMETERS" (msg_sender (tx_msg tx))
                  (block_timestamp (tx_msg tx))])
           (set_appliedTickSpacing t (set_appliedFeeRatio f s)) →
    outcome s tx s'
| outcome_owner o s' :
    ownership_call (tx_call tx) = Some o → msg_sender (tx_msg tx) = _owner s →
    exec s tx = Ok s' →
    s' = set_owner o s →
    outcome s tx s'.

(** ** Authorization *)

(** The handles of the encrypted values a call leaves in storage when it
    completes: for [submitPosition] the three sums and the caller's three
    fields, and the two counters when the caller had no position; for
    [submitVolatility] the two suggestions. *)
Definition written (s : State) (tx : Tx) : list N :=
  let s' := step s tx in
  let p' := position_at (_positions s') (msg_sender (tx_msg tx)) in
  match tx_call tx with
  | SubmitPosition _ _ _ pf =>
      if verifies pf
      then [handle (_aggLiquidity s'); handle (_sumPriceLower s');
            handle (_sumPriceUpper s'); handle (liquidity p');
            handle (priceLower p'); handle (priceUpper p')]
           ++ (if exists_ (position_at (_positions s) (msg_sender (tx_msg tx)))
               then []
               else [handle (_numPositions s');
                     handle (_twoTimesNumPositions s')])
      else []
  | SubmitVolatility _ pf =>
      if verifies pf
      then [handle (_suggestedFeeRatio s'); handle (_suggestedTickSpacing s')]
      else []
  | _ => []
  end.

(** The authorization rule for a step from [s] to [s'] by [sender] that
    leaves the values with handles [w] in storage: each of them was created
    by this step and is readable by exactly the contract, the caller and the
    owner at the time of the call; the readers of every other handle are as
    before, so an intermediate value of the step has none; and every
    encrypted value of the storage is either the one stored before or one
    of [w]. *)
Definition regrant_rule (s s' : State) (sender : address) (w : list N) : Prop :=
  (∀ h, h ∈ w →
     (next_handle (fhe s) ≤ h < next_handle (fhe s'))%N
     ∧ allowed (fhe s') h = three_parties s sender)
  ∧ (∀ h, h ∉ w → allowed (fhe s') h = allowed (fhe s) h)
  ∧ (∀ h, h ∉ w → (next_handle (fhe s) ≤ h)%N → allowed (fhe s') h = ∅)
  ∧ Forall (λ field : State → euint32,
              field s' = field s ∨ handle (field s') ∈ w)
      [_aggLiquidity; _sumPriceLower; _sumPriceUpper; _numPositions;
       _twoTimesNumPositions; _suggestedFeeRatio; _suggestedTickSpacing]
  ∧ (∀ u p, _positions s' !! u = Some p →
       _positions s !! u = Some p
       ∨ (handle (liquidity p) ∈ w ∧ handle (priceLower p) ∈ w
          ∧ handle (priceUpper p) ∈ w)).

(** ** Aggregate sums *)

Definition sums_consistent (s : State) : Prop :=
  clear (_aggLiquidity s) = wrap32 (sum_existing liquidity (_positions s))
  ∧ clear (_sumPriceLower s) = wrap32 (sum_existing priceLower (_positions s))
  ∧ clear (_sumPriceUpper s) = wrap32 (sum_existing priceUpper (_positions s)).

(** ** Positions hold the latest submission *)

(** The values a transaction stores for identity [u], if it is a position
    submission of [u] that the verifier accepts. *)
Definition submitted_by (u : address) (tx : Tx) : option (Z * Z * Z) :=
  match tx_call tx with
  | SubmitPosition l lo up pf =>
      if bool_decide (msg_sender (tx_msg tx) = u) && verifies pf
      then Some (ext_clear l, ext_clear lo, ext_clear up)
      else None
  | _ => None
  end.

(** The most recent accepted submission of [u] in a sequence of calls. *)
Definition latest_submission (u : address) (txs : list Tx) : option (Z * Z * Z) :=
  last (omap (submitted_by u) txs).

Definition position_matches (p : Position) (o : option (Z * Z * Z)) : Prop :=
  match o with
  | Some (l, lo, up) =>
      exists_ p = true ∧ clear (liquidity p) = l
      ∧ clear (priceLower p) = lo ∧ clear (priceUpper p) = up
  | None => exists_ p = false
  end.

(** ** Long executions: many identities, many volatility signals *)

Definition crowd_base : State :=
  deploy 730750818665451459101842416358141509827966271488 1.

(** Identities [1], ..., [n] each submit one position. *)
Definition crowd (n : N) : State :=
  N.peano_rect (λ _, State) crowd_base
    (λ k s, step s (mkSubmit (N.succ k) 0 1 1 2)) n.

(** [n] volatility signals above the threshold. *)
Definition surge (n : N) : State :=
  N.iter n (λ s, step s (mkVolatility 5 0 60)) crowd_base.

(** ** Counter co-derivation *)

Definition coderived (s : State) : Prop :=
  clear (_twoTimesNumPositions s) = wrap32 (2 * clear (_numPositions s)).

(** ** Word size *)

(** Every decrypted quantity of the storage is a 32-bit unsigned integer. *)
Definition all_uint32 (s : State) : Prop :=
  in_uint32 (clear (_aggLiquidity s))
  ∧ in_uint32 (clear (_sumPriceLower s))
  ∧ in_uint32 (clear (_sumPriceUpper s))
  ∧ in_uint32 (clear (_numPositions s))
  ∧ in_uint32 (clear (_twoTimesNumPositions s))
  ∧ in_uint32 (clear (_suggestedFeeRatio s))
  ∧ in_uint32 (clear (_suggestedTickSpacing s))
  ∧ ∀ u p, _positions s !! u = Some p →
      in_uint32 (clear (liquidity p)) ∧ in_uint32 (clear (priceLower p))
      ∧ in_uint32 (clear (priceUpper p)).

(** * Vocabulary of the further properties *)

(** The caller of an accepted position submission. *)
Definition submitter (tx : Tx) : option address :=
  match tx_call tx with
  | SubmitPosition _ _ _ pf =>
      if verifies pf then Some (msg_sender (tx_msg tx)) else None
  | _ => None
  end.

(** The readers a grant leaves: the contract, the caller and the owner at
    the time of the call. *)
Definition parties (this : address) (g : address * address) : gset N :=
  {[this]} ∪ {[g.1]} ∪ {[g.2]}.

(** For each call of [txs] that [sel] selects, in order, the identity it
    selects together with the owner at the time of the call; [o] is the
    owner before [txs]. *)
Fixpoint grants (sel : Tx → option address) (o : address) (txs : list Tx)
  : list (address * address) :=
  match txs with
  | [] => []
  | tx :: rest =>
      match sel tx with
      | Some u => (u, o) :: grants sel (next_owner o tx) rest
      | None => grants sel (next_owner o tx) rest
      end
  end.

(** An accepted position submission of [u]. *)
Definition submission_of (u : address) (tx : Tx) : option address :=
  match submitted_by u tx with Some _ => Some u | None => None end.

(** The callers of accepted submissions that had no position before, each
    with the owner at the time of the call, given the set [seen] of
    identities that already have a position and the owner [o] before
    [txs]. *)
Fixpoint newcomers (seen : gset N) (o : address) (txs : list Tx)
  : list (address * address) :=
  match txs with
  | [] => []
  | tx :: rest =>
      match submitter tx with
      | Some u =>
          if decide (u ∈ seen) then newcomers seen (next_owner o tx) rest
          else (u, o) :: newcomers ({[u]} ∪ seen) (next_owner o tx) rest
      | None => newcomers seen (next_owner o tx) rest
      end
  end.

(** The caller of an accepted volatility submission. *)
Definition signaller (tx : Tx) : option address :=
  match tx_call tx with
  | SubmitVolatility _ pf =>
      if verifies pf then Some (msg_sender (tx_msg tx)) else None
  | _ => None
  end.

(** An accepted volatility submission at or above the threshold. *)
Definition qualifying (tx : Tx) : bool :=
  match tx_call tx with
  | SubmitVolatility v pf => verifies pf && (50 <=? ext_clear v)
  | _ => false
  end.

Fixpoint count_qualifying (txs : list Tx) : Z :=
  match txs with
  | [] => 0
  | tx :: rest => (if qualifying tx then 1 else 0) + count_qualifying rest
  end.

(** The values an [applyParameters] call of [governor] carries. *)
Definition applied_by (governor : address) (tx : Tx) : option (Z * Z) :=
  match tx_call tx with
  | ApplyParameters f t =>
      if bool_decide (msg_sender (tx_msg tx) = governor) then Some (f, t)
      else None
  | _ => None
  end.

(** The values of the [applyParameters] calls of [txs] made by the owner at
    the time of the call, in order; [o] is the owner before [txs]. *)
Fixpoint applied_values (o : address) (txs : list Tx) : list (Z * Z) :=
  match txs with
  | [] => []
  | tx :: rest =>
      match applied_by o tx with
      | Some v => v :: applied_values (next_owner o tx) rest
      | None => applied_values (next_owner o tx) rest
      end
  end.

(** Reading a big-endian byte string back as a number. *)
Definition be_decode (bs : list byte) : Z :=
  foldl (λ acc b, acc * 256 + Z.of_N (Byte.to_N b)) 0 bs.

(** A stored value is either never written, or allocated and readable by
    exactly the [readers]. *)
Definition readable_by (s : State) (readers : option (gset N)) (e : euint32)
  : Prop :=
  match readers with
  | None => e = uninitialized
  | Some r => (handle e < next_handle (fhe s))%N ∧ allowed (fhe s) (handle e) = r
  end.

(** The decrypted content of a position. *)
Definition position_clear (p : Position) : bool * Z * Z * Z :=
  (exists_ p, clear (liquidity p), clear (priceLower p), clear (priceUpper p)).

(** Every stored position exists, and [numPositions] is the number of stored
    positions modulo [2^32]. *)
Definition positions_counted (s : State) : Prop :=
  (∀ u p, _positions s !! u = Some p → exists_ p = true)
  ∧ clear (_numPositions s) = wrap32 (Z.of_nat (size (_positions s))).


(** * Verification *)

(** The end-to-end scenario of the spec, evaluated. *)
Example scenario_values :
  clear (_aggLiquidity scenario) = 15
  ∧ clear (_sumPriceLower scenario) = 90
  ∧ clear (_sumPriceUpper scenario) = 210
  ∧ clear (_numPositions scenario) = 1
  ∧ clear (_twoTimesNumPositions scenario) = 2
  ∧ clear (_suggestedFeeRatio scenario) = 1
  ∧ clear (_suggestedTickSpacing scenario) = 1
  ∧ appliedFeeRatio scenario = 5
  ∧ appliedTickSpacing scenario = 10
  ∧ length (_actionHashes scenario) = 4%nat.
Proof. vm_compute. repeat split; reflexivity. Qed.

(** The packed encoding: big-endian fields, no padding between them. *)
Example be_bytes_258 : be_bytes 2 258 = [x01; x02].
Proof. reflexivity. Qed.

Example abi_encodePacked_length :
  length (abi_encodePacked "SUBMIT_POSITION" 7 1700000000) = (15 + 20 + 32)%nat.
Proof. reflexivity. Qed.

(** ** Arithmetic modulo [2^32] *)

Lemma wrap32_range z : in_uint32 (wrap32 z).
Proof. unfold in_uint32, wrap32. apply Z.mod_pos_bound. lia. Qed.

Lemma wrap32_small z : in_uint32 z → wrap32 z = z.
Proof. unfold in_uint32, wrap32. intros. apply Z.mod_small. lia. Qed.

(** ** Positions map *)

Lemma position_at_insert_eq (m : gmap N Position) u p :
  position_at (<[u := p]> m) u = p.
Proof. unfold position_at. by rewrite lookup_insert_eq. Qed.

Lemma position_at_insert_ne (m : gmap N Position) u v p :
  u ≠ v → position_at (<[u := p]> m) v = position_at m v.
Proof. intros. unfold position_at. by rewrite lookup_insert_ne. Qed.

Section Sums.

  (** The field summed: [liquidity], [priceLower] or [priceUpper]. *)
  Variable field : Position → euint32.

Lemma sum_existing_empty : sum_existing field ∅ = 0.
Proof. unfold sum_existing. apply map_fold_empty. Qed.

Lemma sum_existing_fresh (m : gmap N Position) u p :
  m !! u = None →
  sum_existing field (<[u := p]> m) = contribution field p + sum_existing field m.
Proof.
  intros Hnone. unfold sum_existing, contribution.
  rewrite map_fold_insert_L; [destruct (exists_ p); lia | | done].
  intros j1 j2 z1 z2 y _ _ _.
  destruct (exists_ z1), (exists_ z2); lia.
Qed.

Lemma sum_existing_delete (m : gmap N Position) u q :
  m !! u = Some q →
  sum_existing field m = contribution field q + sum_existing field (delete u m).
Proof.
  intros Hsome. unfold sum_existing, contribution.
  rewrite (map_fold_delete_L _ _ u q m); [destruct (exists_ q); lia | | done].
  intros j1 j2 z1 z2 y _ _ _.
  destruct (exists_ z1), (exists_ z2); lia.
Qed.

(** Replacing the position of [u] changes the sum by the difference of the
    two contributions. *)
Lemma sum_existing_insert (m : gmap N Position) u p :
  sum_existing field (<[u := p]> m)
  = contribution field p + sum_existing field m
    - contribution field (position_at m u).
Proof.
  unfold position_at. destruct (m !! u) as [q|] eqn:Hu; simpl.
  - rewrite (sum_existing_delete m u q Hu).
    rewrite <- (insert_delete_eq m).
    rewrite sum_existing_fresh by apply lookup_delete_eq. lia.
  - rewrite sum_existing_fresh by done. unfold contribution at 3. simpl. lia.
Qed.

End Sums.

(** ** Access-control list *)

Lemma acl_grant_allowed h a (m : gmap N (gset N)) h' :
  default ∅ (acl_grant h a m !! h')
  = if decide (h = h') then {[a]} ∪ default ∅ (m !! h') else default ∅ (m !! h').
Proof.
  unfold acl_grant. case_decide as Hh.
  - subst. by rewrite lookup_insert_eq.
  - by rewrite lookup_insert_ne.
Qed.

Lemma acl_grant_is_Some h a (m : gmap N (gset N)) h' :
  is_Some (acl_grant h a m !! h') → h = h' ∨ is_Some (m !! h').
Proof.
  unfold acl_grant. destruct (decide (h = h')) as [->|Hne]; [by left|].
  rewrite lookup_insert_ne by done. by right.
Qed.

Lemma three_grants (a b c : N) (X : gset N) :
  {[c]} ∪ ({[b]} ∪ ({[a]} ∪ X)) = {[a]} ∪ {[b]} ∪ {[c]} ∪ X.
Proof.
  apply set_eq. intros x. rewrite !elem_of_union. tauto.
Qed.

Lemma allowed_unallocated c h :
  acl_allocated c → (next_handle c ≤ h)%N → allowed c h = ∅.
Proof.
  intros Hc Hh. unfold allowed. destruct (acl c !! h) eqn:E; [|done].
  specialize (Hc h (mk_is_Some _ _ E)). lia.
Qed.

(** ** Symbolic execution of the entry points *)

Ltac unfold_ops :=
  cbv [submitPosition submitVolatility applyParameters constructor
       transferOwnership renounceOwnership getActionsLength getActionAt getAggregates getSuggestions getMyPosition
       FHE_fromExternal FHE_asEuint32 FHE_add FHE_sub FHE_ge FHE_select
       FHE_allow FHE_allowThis fresh_handle p_load p_store sload sstore owner
       onlyOwner _pushAction mbind mret M_bind M_ret revert grant
       set_positions set_aggLiquidity set_sumPriceLower set_sumPriceUpper
       set_numPositions set_twoTimesNumPositions set_suggestedFeeRatio
       set_suggestedTickSpacing set_appliedFeeRatio set_appliedTickSpacing
       set_actionHashes set_fhe set_owner
       address_this _owner _positions _aggLiquidity _sumPriceLower
       _sumPriceUpper _numPositions _twoTimesNumPositions _suggestedFeeRatio
       _suggestedTickSpacing appliedFeeRatio appliedTickSpacing _actionHashes
       fhe next_handle acl msg_sender block_timestamp].

Ltac tidy_positions :=
  repeat first
    [ rewrite position_at_insert_eq
    | rewrite insert_insert_eq ];
  cbv [with_liquidity with_priceLower with_priceUpper with_exists];
  cbn [liquidity priceLower priceUpper exists_ handle clear].

Ltac destruct_state s :=
  destruct s as [this own pos agg spl spu num two fee tick af at_ log [nh ac]].

Ltac project_state :=
  cbn [address_this _owner _positions _aggLiquidity _sumPriceLower
       _sumPriceUpper _numPositions _twoTimesNumPositions _suggestedFeeRatio
       _suggestedTickSpacing appliedFeeRatio appliedTickSpacing _actionHashes
       fhe next_handle acl msg_sender block_timestamp handle clear] in *.

Ltac solve_allowed :=
  cbv [allowed three_parties]; project_state;
  repeat (rewrite acl_grant_allowed; destruct (decide _); try lia);
  first [reflexivity | apply three_grants].

Ltac split_members H :=
  repeat (apply elem_of_cons in H as [->|H]);
  [.. | by apply elem_of_nil in H].

Ltac solve_acl_dom H :=
  project_state;
  repeat (apply acl_grant_is_Some in H as [<-|H]; [right; lia|]);
  by left.

Ltac solve_acl_other H :=
  project_state; cbn [app] in H;
  repeat (apply not_elem_of_cons in H as [? H]);
  solve_allowed.

Lemma submitPosition_ok msg l lo up pf s :
  verifies pf = true →
  ∃ s', submitPosition msg l lo up pf s = Ok (tt, s')
        ∧ submitPosition_effect msg l lo up s s'.
Proof.
  intros Hpf. destruct msg as [u ts]. destruct_state s.
  unfold_ops. rewrite Hpf.
  destruct (exists_ (position_at pos u)) eqn:Hex.
  - eexists; split; [reflexivity|].
    constructor; project_state; rewrite ?Hex; try reflexivity.
    + tidy_positions. repeat f_equal; lia.
    + unfold without. by rewrite Hex.
    + unfold without. by rewrite Hex.
    + unfold without. by rewrite Hex.
    + lia.
    + repeat split; lia.
    + tidy_positions. intros h Hh. split_members Hh; solve_allowed.
    + done.
    + tidy_positions. intros h Hh. solve_allowed.
    + tidy_positions. intros h Hh. solve_acl_dom Hh.
    + tidy_positions. intros h Hh. solve_acl_other Hh.
  - eexists; split; [reflexivity|].
    constructor; project_state; rewrite ?Hex; try reflexivity.
    + tidy_positions. repeat f_equal; lia.
    + unfold without. by rewrite Hex.
    + unfold without. by rewrite Hex.
    + unfold without. by rewrite Hex.
    + f_equal; lia.
    + f_equal; lia.
    + lia.
    + repeat split; lia.
    + tidy_positions. intros h Hh. split_members Hh; solve_allowed.
    + tidy_positions. intros _ h Hh. split_members Hh; solve_allowed.
    + tidy_positions. intros h Hh. solve_allowed.
    + tidy_positions. intros h Hh. solve_acl_dom Hh.
    + tidy_positions. intros h Hh. solve_acl_other Hh.
Qed.

Lemma submitPosition_rejected msg l lo up pf s :
  verifies pf = false →
  submitPosition msg l lo up pf s = Err InvalidCiphertextProof.
Proof. intros Hpf. unfold_ops. by rewrite Hpf. Qed.

Lemma submitVolatility_ok msg v pf s :
  verifies pf = true →
  ∃ s', submitVolatility msg v pf s = Ok (tt, s')
        ∧ submitVolatility_effect msg v s s'.
Proof.
  intros Hpf. destruct msg as [u ts]. destruct_state s.
  unfold_ops. rewrite Hpf.
  eexists; split; [reflexivity|].
  constructor; project_state; try reflexivity.
  - f_equal; lia.
  - f_equal; lia.
  - lia.
  - intros h Hh. split_members Hh; solve_allowed.
  - intros h Hh. solve_allowed.
  - intros h Hh. solve_acl_dom Hh.
  - intros h Hh. solve_acl_other Hh.
Qed.

Lemma submitVolatility_rejected msg v pf s :
  verifies pf = false →
  submitVolatility msg v pf s = Err InvalidCiphertextProof.
Proof. intros Hpf. unfold_ops. by rewrite Hpf. Qed.

Lemma applyParameters_owner msg f t s :
  msg_sender msg = _owner s →
  applyParameters msg f t s
  = Ok (tt, set_actionHashes
              (_actionHashes s
               ++ [action_digest "APPLY_PARAMETERS" (msg_sender msg)
                     (block_timestamp msg)])
              (set_appliedTickSpacing t (set_appliedFeeRatio f s))).
Proof.
  intros Hown. destruct msg as [u ts]. destruct_state s.
  simpl in Hown. subst own. unfold_ops.
  destruct (decide (u = u)); [reflexivity | done].
Qed.

Lemma applyParameters_other msg f t s :
  msg_sender msg ≠ _owner s →
  applyParameters msg f t s = Err Unauthorized.
Proof.
  intros Hown. destruct msg as [u ts]. destruct_state s.
  simpl in Hown. unfold_ops.
  destruct (decide (own = u)); [by subst | reflexivity].
Qed.

(** The two ownership functions: accepted from the owner only, and
    [transferOwnership] not to the zero address. *)
Lemma transferOwnership_owner msg newOwner s :
  msg_sender msg = _owner s → newOwner ≠ 0%N →
  transferOwnership msg newOwner s = Ok (tt, set_owner newOwner s).
Proof.
  intros Hown Hnz. destruct msg as [u ts]. destruct_state s.
  simpl in Hown. subst own. unfold_ops.
  destruct (decide (u = u)); [|done].
  destruct (decide (newOwner = 0%N)); [done | reflexivity].
Qed.

Lemma transferOwnership_zero msg s :
  msg_sender msg = _owner s →
  transferOwnership msg 0 s = Err InvalidOwner.
Proof.
  intros Hown. destruct msg as [u ts]. destruct_state s.
  simpl in Hown. subst own. unfold_ops.
  destruct (decide (u = u)); [reflexivity | done].
Qed.

Lemma transferOwnership_other msg newOwner s :
  msg_sender msg ≠ _owner s →
  transferOwnership msg newOwner s = Err Unauthorized.
Proof.
  intros Hown. destruct msg as [u ts]. destruct_state s.
  simpl in Hown. unfold_ops.
  destruct (decide (own = u)); [by subst | reflexivity].
Qed.

Lemma renounceOwnership_owner msg s :
  msg_sender msg = _owner s →
  renounceOwnership msg s = Ok (tt, set_owner 0 s).
Proof.
  intros Hown. destruct msg as [u ts]. destruct_state s.
  simpl in Hown. subst own. unfold_ops.
  destruct (decide (u = u)); [reflexivity | done].
Qed.

Lemma renounceOwnership_other msg s :
  msg_sender msg ≠ _owner s →
  renounceOwnership msg s = Err Unauthorized.
Proof.
  intros Hown. destruct msg as [u ts]. destruct_state s.
  simpl in Hown. unfold_ops.
  destruct (decide (own = u)); [by subst | reflexivity].
Qed.

(** The state right after deployment, field by field. *)
Lemma deploy_state this deployer :
  deploy this deployer
  = {| address_this := this; _owner := deployer; _positions := ∅;
       _aggLiquidity := uninitialized; _sumPriceLower := uninitialized;
       _sumPriceUpper := uninitialized; _numPositions := uninitialized;
       _twoTimesNumPositions := uninitialized;
       _suggestedFeeRatio := {| handle := 1; clear := 0 |};
       _suggestedTickSpacing := {| handle := 2; clear := 0 |};
       appliedFeeRatio := 0; appliedTickSpacing := 0; _actionHashes := [];
       fhe := {| next_handle := 3;
                 acl := acl_grant 2 this (acl_grant 1 this ∅) |} |}.
Proof. reflexivity. Qed.

(** The three read queries return the stored handles and leave the storage
    as it is. *)
Lemma views_pure s msg :
  getAggregates s
  = Ok ((_aggLiquidity s, _sumPriceLower s, _sumPriceUpper s,
         _twoTimesNumPositions s), s)
  ∧ getSuggestions s = Ok ((_suggestedFeeRatio s, _suggestedTickSpacing s), s)
  ∧ getMyPosition msg s
    = Ok ((liquidity (position_at (_positions s) (msg_sender msg)),
           priceLower (position_at (_positions s) (msg_sender msg)),
           priceUpper (position_at (_positions s) (msg_sender msg)),
           exists_ (position_at (_positions s) (msg_sender msg))), s).
Proof. destruct msg. destruct_state s. repeat split. Qed.

(** ** One transaction *)

Lemma step_outcome s tx : outcome s tx (step s tx).
Proof.
  unfold step. destruct tx as [msg [l lo up pf | v pf | f t | o |]].
  - destruct (verifies pf) eqn:Hpf.
    + destruct (submitPosition_ok msg l lo up pf s Hpf) as (s' & Hrun & Heff).
      assert (Hexec : exec s {| tx_msg := msg; tx_call := SubmitPosition l lo up pf |} = Ok s')
        by (unfold exec, dispatch; cbn [tx_call tx_msg]; by rewrite Hrun).
      rewrite Hexec. by eapply outcome_position.
    + assert (Hexec : exec s {| tx_msg := msg; tx_call := SubmitPosition l lo up pf |}
                      = Err InvalidCiphertextProof)
        by (unfold exec, dispatch; cbn [tx_call tx_msg]; by rewrite submitPosition_rejected).
      rewrite Hexec. by eapply outcome_reverted.
  - destruct (verifies pf) eqn:Hpf.
    + destruct (submitVolatility_ok msg v pf s Hpf) as (s' & Hrun & Heff).
      assert (Hexec : exec s {| tx_msg := msg; tx_call := SubmitVolatility v pf |} = Ok s')
        by (unfold exec, dispatch; cbn [tx_call tx_msg]; by rewrite Hrun).
      rewrite Hexec. by eapply outcome_volatility.
    + assert (Hexec : exec s {| tx_msg := msg; tx_call := SubmitVolatility v pf |}
                      = Err InvalidCiphertextProof)
        by (unfold exec, dispatch; cbn [tx_call tx_msg]; by rewrite submitVolatility_rejected).
      rewrite Hexec. by eapply outcome_reverted.
  - destruct (decide (msg_sender msg = _owner s)) as [Hown|Hown].
    + pose proof (applyParameters_owner msg f t s Hown) as Hrun.
      match type of Hrun with _ = Ok (_, ?st) =>
        assert (Hexec : exec s {| tx_msg := msg; tx_call := ApplyParameters f t |} = Ok st)
          by (unfold exec, dispatch; cbn [tx_call tx_msg]; by rewrite Hrun)
      end.
      rewrite Hexec. by eapply outcome_applied.
    + assert (Hexec : exec s {| tx_msg := msg; tx_call := ApplyParameters f t |}
                      = Err Unauthorized)
        by (unfold exec, dispatch; cbn [tx_call tx_msg]; by rewrite applyParameters_other).
      rewrite Hexec. by eapply outcome_reverted.
  - destruct (decide (msg_sender msg = _owner s)) as [Hown|Hown];
      [destruct (decide (o = 0%N)) as [->|Hnz]|].
    + assert (Hexec : exec s {| tx_msg := msg; tx_call := TransferOwnership 0 |}
                      = Err InvalidOwner)
        by (unfold exec, dispatch; cbn [tx_call tx_msg];
            by rewrite transferOwnership_zero).
      rewrite Hexec. by eapply outcome_reverted.
    + assert (Hexec : exec s {| tx_msg := msg; tx_call := TransferOwnership o |}
                      = Ok (set_owner o s))
        by (unfold exec, dispatch; cbn [tx_call tx_msg];
            by rewrite transferOwnership_owner).
      rewrite Hexec. eapply (outcome_owner _ _ o); try done.
      cbn [tx_call ownership_call]. by rewrite decide_False.
    + assert (Hexec : exec s {| tx_msg := msg; tx_call := TransferOwnership o |}
                      = Err Unauthorized)
        by (unfold exec, dispatch; cbn [tx_call tx_msg];
            by rewrite transferOwnership_other).
      rewrite Hexec. by eapply outcome_reverted.
  - destruct (decide (msg_sender msg = _owner s)) as [Hown|Hown].
    + assert (Hexec : exec s {| tx_msg := msg; tx_call := RenounceOwnership |}
                      = Ok (set_owner 0 s))
        by (unfold exec, dispatch; cbn [tx_call tx_msg];
            by rewrite renounceOwnership_owner).
      rewrite Hexec. by eapply (outcome_owner _ _ 0%N).
    + assert (Hexec : exec s {| tx_msg := msg; tx_call := RenounceOwnership |}
                      = Err Unauthorized)
        by (unfold exec, dispatch; cbn [tx_call tx_msg];
            by rewrite renounceOwnership_other).
      rewrite Hexec. by eapply outcome_reverted.
Qed.

Lemma exec_step s tx s' : exec s tx = Ok s' → step s tx = s'.
Proof. unfold step. by intros ->. Qed.

Lemma exec_succeeds s tx s' : exec s tx = Ok s' → succeeds s tx = true.
Proof. unfold succeeds. by intros ->. Qed.

Lemma exec_fails s tx e : exec s tx = Err e → step s tx = s ∧ succeeds s tx = false.
Proof. unfold step, succeeds. by intros ->. Qed.

(** A submission with a valid proof always completes. *)
Lemma step_mkSubmit s u t l lo up :
  succeeds s (mkSubmit u t l lo up) = true
  ∧ submitPosition_effect {| msg_sender := u; block_timestamp := t |}
      {| ext_clear := l |} {| ext_clear := lo |} {| ext_clear := up |}
      s (step s (mkSubmit u t l lo up)).
Proof.
  destruct (submitPosition_ok {| msg_sender := u; block_timestamp := t |}
              {| ext_clear := l |} {| ext_clear := lo |} {| ext_clear := up |}
              {| verifies := true |} s eq_refl) as (s' & Hrun & Heff).
  assert (Hexec : exec s (mkSubmit u t l lo up) = Ok s')
    by (unfold exec, dispatch, mkSubmit; cbn [tx_call tx_msg]; by rewrite Hrun).
  rewrite (exec_step _ _ _ Hexec), (exec_succeeds _ _ _ Hexec). done.
Qed.

Lemma step_mkVolatility s u t v :
  succeeds s (mkVolatility u t v) = true
  ∧ submitVolatility_effect {| msg_sender := u; block_timestamp := t |}
      {| ext_clear := v |} s (step s (mkVolatility u t v)).
Proof.
  destruct (submitVolatility_ok {| msg_sender := u; block_timestamp := t |}
              {| ext_clear := v |} {| verifies := true |} s eq_refl)
    as (s' & Hrun & Heff).
  assert (Hexec : exec s (mkVolatility u t v) = Ok s')
    by (unfold exec, dispatch, mkVolatility; cbn [tx_call tx_msg]; by rewrite Hrun).
  rewrite (exec_step _ _ _ Hexec), (exec_succeeds _ _ _ Hexec). done.
Qed.

Lemma exec_position s msg l lo up pf :
  verifies pf = true →
  ∃ s', exec s {| tx_msg := msg; tx_call := SubmitPosition l lo up pf |} = Ok s'
        ∧ submitPosition_effect msg l lo up s s'.
Proof.
  intros Hpf.
  destruct (submitPosition_ok msg l lo up pf s Hpf) as (s' & Hrun & Heff).
  exists s'. split; [|exact Heff].
  unfold exec, dispatch. cbn [tx_call tx_msg]. by rewrite Hrun.
Qed.

Lemma exec_volatility s msg v pf :
  verifies pf = true →
  ∃ s', exec s {| tx_msg := msg; tx_call := SubmitVolatility v pf |} = Ok s'
        ∧ submitVolatility_effect msg v s s'.
Proof.
  intros Hpf.
  destruct (submitVolatility_ok msg v pf s Hpf) as (s' & Hrun & Heff).
  exists s'. split; [|exact Heff].
  unfold exec, dispatch. cbn [tx_call tx_msg]. by rewrite Hrun.
Qed.

Lemma set_owner_id s : set_owner (_owner s) s = s.
Proof. by destruct s. Qed.

(** The step of a transaction, by kind of call. *)
Lemma step_cases s tx :
  match tx_call tx with
  | SubmitPosition l lo up pf =>
      if verifies pf
      then submitPosition_effect (tx_msg tx) l lo up s (step s tx)
      else step s tx = s
  | SubmitVolatility v pf =>
      if verifies pf
      then submitVolatility_effect (tx_msg tx) v s (step s tx)
      else step s tx = s
  | ApplyParameters f t =>
      if decide (msg_sender (tx_msg tx) = _owner s)
      then step s tx
           = set_actionHashes
               (_actionHashes s
                ++ [action_digest "APPLY_PARAMETERS" (msg_sender (tx_msg tx))
                      (block_timestamp (tx_msg tx))])
               (set_appliedTickSpacing t (set_appliedFeeRatio f s))
      else step s tx = s
  | TransferOwnership _ | RenounceOwnership =>
      step s tx = set_owner (next_owner (_owner s) tx) s
  end.
Proof.
  destruct tx as [msg [l lo up pf | v pf | f t | o |]]; cbn [tx_call tx_msg].
  - destruct (verifies pf) eqn:Hpf.
    + destruct (exec_position s msg l lo up pf Hpf) as (s' & Hexec & Heff).
      by rewrite (exec_step _ _ _ Hexec).
    + unfold step, exec, dispatch. cbn [tx_call tx_msg].
      by rewrite submitPosition_rejected.
  - destruct (verifies pf) eqn:Hpf.
    + destruct (exec_volatility s msg v pf Hpf) as (s' & Hexec & Heff).
      by rewrite (exec_step _ _ _ Hexec).
    + unfold step, exec, dispatch. cbn [tx_call tx_msg].
      by rewrite submitVolatility_rejected.
  - unfold step, exec, dispatch. cbn [tx_call tx_msg].
    destruct (decide (msg_sender msg = _owner s)) as [Hown|Hown].
    + by rewrite applyParameters_owner.
    + by rewrite applyParameters_other.
  - unfold step, exec, dispatch, next_owner. cbn [tx_call tx_msg ownership_call].
    destruct (decide (msg_sender msg = _owner s)) as [Hown|Hown].
    + destruct (decide (o = 0%N)) as [->|Hnz].
      * by rewrite transferOwnership_zero, set_owner_id.
      * by rewrite transferOwnership_owner.
    + rewrite transferOwnership_other by done.
      destruct (decide (o = 0%N)); by rewrite set_owner_id.
  - unfold step, exec, dispatch, next_owner. cbn [tx_call tx_msg ownership_call].
    destruct (decide (msg_sender msg = _owner s)) as [Hown|Hown].
    + by rewrite renounceOwnership_owner.
    + by rewrite renounceOwnership_other, set_owner_id.
Qed.

(** What no transaction changes: the address of the contract, the
    allocation order of handles, and the grants of handles allocated
    before. *)
Lemma step_frame s tx :
  address_this (step s tx) = address_this s
  ∧ (next_handle (fhe s) ≤ next_handle (fhe (step s tx)))%N
  ∧ (∀ h, (h < next_handle (fhe s))%N →
       allowed (fhe (step s tx)) h = allowed (fhe s) h).
Proof.
  pose proof (step_cases s tx) as Hc.
  destruct (tx_call tx) as [l lo up pf | v pf | f t | o |].
  - destruct (verifies pf); [|by rewrite Hc].
    split; [apply (spe_this _ _ _ _ _ _ Hc)|].
    split; [|apply (spe_acl_old _ _ _ _ _ _ Hc)].
    rewrite (spe_next_handle _ _ _ _ _ _ Hc). destruct (exists_ _); lia.
  - destruct (verifies pf); [|by rewrite Hc].
    split; [apply (sve_this _ _ _ _ Hc)|].
    split; [|apply (sve_acl_old _ _ _ _ Hc)].
    rewrite (sve_next_handle _ _ _ _ Hc). lia.
  - destruct (decide _); by rewrite Hc.
  - by rewrite Hc.
  - by rewrite Hc.
Qed.

(** The owner changes as [next_owner] says: only by an ownership call of
    the owner. *)
Lemma step_owner s tx : _owner (step s tx) = next_owner (_owner s) tx.
Proof.
  pose proof (step_cases s tx) as Hc. unfold next_owner in *.
  destruct (tx_call tx) as [l lo up pf | v pf | f t | o |];
    cbn [ownership_call] in *.
  - destruct (verifies pf); [apply (spe_owner _ _ _ _ _ _ Hc) | by rewrite Hc].
  - destruct (verifies pf); [apply (sve_owner _ _ _ _ Hc) | by rewrite Hc].
  - destruct (decide _); by rewrite Hc.
  - by rewrite Hc.
  - by rewrite Hc.
Qed.

(** ** Executions *)

Lemma run_snoc s txs tx : run s (txs ++ [tx]) = step (run s txs) tx.
Proof. unfold run. by rewrite foldl_app. Qed.

Lemma run_owner s txs : _owner (run s txs) = owner_after (_owner s) txs.
Proof.
  revert s. induction txs as [|tx txs IH]; intros s; [done|].
  change (run s (tx :: txs)) with (run (step s tx) txs).
  rewrite IH, step_owner. reflexivity.
Qed.

Lemma reachable_run s txs : reachable s → reachable (run s txs).
Proof.
  revert s. induction txs as [|tx txs IH]; intros s Hs; [done|].
  simpl. apply IH. by apply reachable_step.
Qed.

(** An invariant established by deployment and kept by every outcome holds
    in every reachable state. *)
Lemma reachable_ind_outcome (P : State → Prop) :
  (∀ this deployer, P (deploy this deployer)) →
  (∀ s tx s', P s → outcome s tx s' → P s') →
  ∀ s, reachable s → P s.
Proof.
  intros Hinit Hstep s Hs. induction Hs as [|s tx Hs IH]; [apply Hinit|].
  eapply Hstep; [exact IH | apply step_outcome].
Qed.

(** ** Aggregate sums *)

Lemma without_sum field (sum : euint32) (p : Position) S v :
  clear sum = wrap32 S →
  wrap32 (without field sum p + v) = wrap32 (v + S - contribution field p).
Proof.
  intros HS. unfold without, contribution. rewrite HS.
  destruct (exists_ p); unfold wrap32; Z.div_mod_to_equations; lia.
Qed.

Lemma sums_consistent_deploy this deployer :
  sums_consistent (deploy this deployer).
Proof.
  rewrite deploy_state. unfold sums_consistent. simpl.
  rewrite !sum_existing_empty. done.
Qed.

Lemma sums_consistent_outcome s tx s' :
  sums_consistent s → outcome s tx s' → sums_consistent s'.
Proof.
  intros (Hl & Hlo & Hup) [e _ | l lo up pf s1 _ _ _ Heff | v pf s1 _ _ _ Heff
                          | f t s1 _ _ _ -> | o s1 _ _ _ ->];
    [done | | | done | done].
  - unfold sums_consistent.
    rewrite (spe_positions _ _ _ _ _ _ Heff), !sum_existing_insert.
    rewrite (spe_aggLiquidity _ _ _ _ _ _ Heff),
      (spe_sumPriceLower _ _ _ _ _ _ Heff), (spe_sumPriceUpper _ _ _ _ _ _ Heff).
    rewrite (without_sum _ _ _ _ _ Hl), (without_sum _ _ _ _ _ Hlo),
      (without_sum _ _ _ _ _ Hup).
    done.
  - unfold sums_consistent.
    by rewrite (sve_positions _ _ _ _ Heff), (sve_aggLiquidity _ _ _ _ Heff),
      (sve_sumPriceLower _ _ _ _ Heff), (sve_sumPriceUpper _ _ _ _ Heff).
Qed.

Lemma sums_consistent_reachable s : reachable s → sums_consistent s.
Proof.
  apply reachable_ind_outcome.
  - apply sums_consistent_deploy.
  - intros s0 tx s1. apply sums_consistent_outcome.
Qed.

(** ** Positions hold the latest submission *)

Lemma latest_submission_snoc u txs tx :
  latest_submission u (txs ++ [tx])
  = match submitted_by u tx with
    | Some v => Some v
    | None => latest_submission u txs
    end.
Proof.
  unfold latest_submission. rewrite omap_app. simpl.
  destruct (submitted_by u tx); simpl.
  - by rewrite last_snoc.
  - by rewrite app_nil_r.
Qed.

Lemma submitted_by_outcome u s tx s' :
  outcome s tx s' →
  match submitted_by u tx with
  | Some v => position_matches (position_at (_positions s') u) (Some v)
  | None => position_at (_positions s') u = position_at (_positions s) u
  end.
Proof.
  intros [e Hexec | l lo up pf s1 Hcall Hpf _ Heff | v pf s1 Hcall _ _ Heff
         | f t s1 Hcall _ _ -> | o s1 Hcall _ _ ->]; unfold submitted_by.
  - destruct (tx_call tx) as [l lo up pf| | | |] eqn:Hcall; [|done..].
    destruct (verifies pf) eqn:Hpf; [|by rewrite andb_false_r].
    exfalso. destruct tx as [msg c]. simpl in Hcall. subst c.
    destruct (submitPosition_ok msg l lo up pf s Hpf) as (s1 & Hrun & _).
    unfold exec, dispatch in Hexec. cbn [tx_call tx_msg] in Hexec.
    by rewrite Hrun in Hexec.
  - rewrite Hcall, Hpf, andb_true_r, (spe_positions _ _ _ _ _ _ Heff).
    case_bool_decide as Hu.
    + subst u. rewrite position_at_insert_eq. done.
    + by rewrite position_at_insert_ne.
  - by rewrite Hcall, (sve_positions _ _ _ _ Heff).
  - by rewrite Hcall.
  - by destruct (tx_call tx).
Qed.

Lemma positions_latest this deployer txs u :
  position_matches
    (position_at (_positions (run (deploy this deployer) txs)) u)
    (latest_submission u txs).
Proof.
  induction txs as [|tx txs IH] using rev_ind.
  - rewrite deploy_state. done.
  - rewrite run_snoc, latest_submission_snoc.
    pose proof (submitted_by_outcome u _ tx _
                  (step_outcome (run (deploy this deployer) txs) tx)) as Hout.
    destruct (submitted_by u tx); [done|]. by rewrite Hout.
Qed.

(** C1 as stated fails: two identities submit liquidity [2^31] each; the
    stored sum is [0] while the arithmetic sum of the two stored positions is
    [2^32]. *)
Lemma aggregate_consistency_overflow :
  let s := run (deploy 1000 1)
             [mkSubmit 7 10 2147483648 100 200; mkSubmit 8 11 2147483648 90 210] in
  clear (liquidity (position_at (_positions s) 7)) = 2147483648
  ∧ clear (liquidity (position_at (_positions s) 8)) = 2147483648
  ∧ sum_existing liquidity (_positions s) = 4294967296
  ∧ clear (_aggLiquidity s) = 0
  ∧ clear (_aggLiquidity s) ≠ sum_existing liquidity (_positions s).
Proof. vm_compute. repeat split; try reflexivity. discriminate. Qed.

(** C1 (amended): after any sequence of calls by any identities, each of the
    three stored sums equals, modulo [2^32], the sum of the corresponding
    field over exactly the identities whose position exists, and the
    position of every identity holds the values of its most recent accepted
    submission (and does not exist if there was none).  Where the sum of the
    stored values is itself below [2^32], the stored sum is that sum. *)
Theorem aggregate_consistency_mod (this deployer : address) (txs : list Tx) :
  let s := run (deploy this deployer) txs in
  clear (_aggLiquidity s) = wrap32 (sum_existing liquidity (_positions s))
  ∧ clear (_sumPriceLower s) = wrap32 (sum_existing priceLower (_positions s))
  ∧ clear (_sumPriceUpper s) = wrap32 (sum_existing priceUpper (_positions s))
  ∧ (∀ u, position_matches (position_at (_positions s) u)
            (latest_submission u txs))
  ∧ (in_uint32 (sum_existing liquidity (_positions s)) →
     clear (_aggLiquidity s) = sum_existing liquidity (_positions s))
  ∧ (in_uint32 (sum_existing priceLower (_positions s)) →
     clear (_sumPriceLower s) = sum_existing priceLower (_positions s))
  ∧ (in_uint32 (sum_existing priceUpper (_positions s)) →
     clear (_sumPriceUpper s) = sum_existing priceUpper (_positions s)).
Proof.
  intros s.
  destruct (sums_consistent_reachable s) as (Hl & Hlo & Hup).
  { apply reachable_run, reachable_deploy. }
  split; [exact Hl|]. split; [exact Hlo|]. split; [exact Hup|].
  split; [intros u; apply positions_latest|].
  rewrite Hl, Hlo, Hup. repeat split; apply wrap32_small.
Qed.

(** ** Long executions *)

Lemma crowd_succ n :
  crowd (N.succ n) = step (crowd n) (mkSubmit (N.succ n) 0 1 1 2).
Proof. unfold crowd. rewrite N.peano_rect_succ. reflexivity. Qed.

Lemma surge_succ n : surge (N.succ n) = step (surge n) (mkVolatility 5 0 60).
Proof. unfold surge. rewrite N.iter_succ. reflexivity. Qed.

Lemma crowd_reachable n : reachable (crowd n).
Proof.
  induction n as [|n IH] using N.peano_ind.
  - change (reachable crowd_base). apply reachable_deploy.
  - rewrite crowd_succ. apply reachable_step, IH.
Qed.

Lemma surge_reachable n : reachable (surge n).
Proof.
  induction n as [|n IH] using N.peano_ind.
  - change (reachable crowd_base). apply reachable_deploy.
  - rewrite surge_succ. apply reachable_step, IH.
Qed.

Lemma crowd_newcomer n u :
  (n < u)%N → exists_ (position_at (_positions (crowd n)) u) = false.
Proof.
  revert u. induction n as [|n IH] using N.peano_ind; intros u Hu.
  - reflexivity.
  - rewrite crowd_succ.
    destruct (step_mkSubmit (crowd n) (N.succ n) 0 1 1 2) as [_ Heff].
    rewrite (spe_positions _ _ _ _ _ _ Heff). cbn [msg_sender].
    rewrite position_at_insert_ne by lia. apply IH. lia.
Qed.

Lemma crowd_counters n :
  clear (_numPositions (crowd n)) = wrap32 (Z.of_N n)
  ∧ clear (_twoTimesNumPositions (crowd n)) = wrap32 (2 * Z.of_N n).
Proof.
  induction n as [|n [IHn IHt]] using N.peano_ind.
  - split; reflexivity.
  - rewrite crowd_succ.
    destruct (step_mkSubmit (crowd n) (N.succ n) 0 1 1 2) as [_ Heff].
    rewrite (spe_numPositions _ _ _ _ _ _ Heff),
      (spe_twoTimesNumPositions _ _ _ _ _ _ Heff).
    cbn [msg_sender]. rewrite crowd_newcomer by lia. cbn [clear].
    rewrite IHn, IHt, N2Z.inj_succ. unfold wrap32.
    split; Z.div_mod_to_equations; lia.
Qed.

Lemma surge_suggestions n :
  clear (_suggestedFeeRatio (surge n)) = wrap32 (Z.of_N n)
  ∧ clear (_suggestedTickSpacing (surge n)) = wrap32 (Z.of_N n).
Proof.
  induction n as [|n [IHf IHt]] using N.peano_ind.
  - split; reflexivity.
  - rewrite surge_succ.
    destruct (step_mkVolatility (surge n) 5 0 60) as [_ Heff].
    rewrite (sve_suggestedFeeRatio _ _ _ _ Heff),
      (sve_suggestedTickSpacing _ _ _ _ Heff).
    cbn [clear ext_clear]. change (50 <=? 60) with true. cbv iota.
    rewrite IHf, IHt, N2Z.inj_succ. unfold wrap32.
    split; Z.div_mod_to_equations; lia.
Qed.

(** ** Replace-on-resubmit *)

Lemma replace_twice W a b :
  wrap32 (wrap32 (wrap32 (W + a) - a) + b) = wrap32 (W + b).
Proof. unfold wrap32. Z.div_mod_to_equations. lia. Qed.

Lemma resubmission_sum field (sum sumA : euint32) (p pA : Position) a b :
  clear sumA = wrap32 (without field sum p + a) →
  exists_ pA = true → clear (field pA) = a →
  wrap32 (without field sumA pA + b) = wrap32 (without field sum p + b).
Proof.
  intros HA Hex Ha. unfold without at 1. rewrite Hex, HA, Ha.
  apply replace_twice.
Qed.

(** C2 as stated fails in its counter part: once [2^32 - 1] identities hold a
    position, the first submission of one more identity takes the counter
    from [2^32 - 1] to [0] instead of increasing it by one. *)
Lemma numPositions_wraps :
  let s := crowd 4294967295 in
  let s' := step s (mkSubmit 4294967296 0 1 1 2) in
  reachable s
  ∧ exists_ (position_at (_positions s) 4294967296) = false
  ∧ clear (_numPositions s) = 4294967295
  ∧ clear (_numPositions s') = 0.
Proof.
  cbv zeta.
  pose proof (crowd_newcomer 4294967295 4294967296 ltac:(lia)) as Hnew.
  pose proof (proj1 (crowd_counters 4294967295)) as Hnum.
  change (wrap32 (Z.of_N 4294967295)) with 4294967295 in Hnum.
  destruct (step_mkSubmit (crowd 4294967295) 4294967296 0 1 1 2) as [_ Heff].
  pose proof (spe_numPositions _ _ _ _ _ _ Heff) as Hn.
  cbn [msg_sender] in Hn. rewrite Hnew in Hn.
  split; [apply crowd_reachable|]. split; [exact Hnew|]. split; [exact Hnum|].
  rewrite Hn. cbn [clear]. rewrite Hnum. reflexivity.
Qed.

(** C2 (amended): for any state and identity, submitting A and then B leaves
    the three sums equal to those after submitting only B; the first
    submission of an identity adds one to [numPositions] modulo [2^32]
    (exactly one while the counter is below [2^32 - 1]), and a submission by
    an identity that already has a position leaves [numPositions] as it is. *)
Theorem idempotent_replace_mod (s : State) (u : address)
    (tA tB a1 a2 a3 b1 b2 b3 : Z) :
  let txA := mkSubmit u tA a1 a2 a3 in
  let txB := mkSubmit u tB b1 b2 b3 in
  let sA := step s txA in
  let sAB := step sA txB in
  let sB := step s txB in
  (succeeds s txA = true ∧ succeeds sA txB = true ∧ succeeds s txB = true)
  ∧ (clear (_aggLiquidity sAB) = clear (_aggLiquidity sB)
     ∧ clear (_sumPriceLower sAB) = clear (_sumPriceLower sB)
     ∧ clear (_sumPriceUpper sAB) = clear (_sumPriceUpper sB))
  ∧ clear (_numPositions sA)
    = (if exists_ (position_at (_positions s) u)
       then clear (_numPositions s)
       else wrap32 (clear (_numPositions s) + 1))
  ∧ (exists_ (position_at (_positions s) u) = false →
     0 ≤ clear (_numPositions s) < 4294967295 →
     clear (_numPositions sA) = clear (_numPositions s) + 1)
  ∧ exists_ (position_at (_positions sA) u) = true
  ∧ _numPositions sAB = _numPositions sA
  ∧ clear (_numPositions sAB) = clear (_numPositions sB).
Proof.
  intros txA txB sA sAB sB.
  destruct (step_mkSubmit s u tA a1 a2 a3) as [HokA EA].
  destruct (step_mkSubmit sA u tB b1 b2 b3) as [HokAB EAB].
  destruct (step_mkSubmit s u tB b1 b2 b3) as [HokB EB].
  fold txA sA in HokA, EA. fold txB sAB in HokAB, EAB. fold txB sB in HokB, EB.
  assert (HpA : position_at (_positions sA) u
                = {| liquidity := {| handle := next_handle (fhe s); clear := a1 |};
                     priceLower := {| handle := next_handle (fhe s) + 1; clear := a2 |};
                     priceUpper := {| handle := next_handle (fhe s) + 2; clear := a3 |};
                     exists_ := true |}).
  { rewrite (spe_positions _ _ _ _ _ _ EA). apply position_at_insert_eq. }
  assert (HnumA : clear (_numPositions sA)
                  = if exists_ (position_at (_positions s) u)
                    then clear (_numPositions s)
                    else wrap32 (clear (_numPositions s) + 1)).
  { rewrite (spe_numPositions _ _ _ _ _ _ EA). cbn [msg_sender].
    by destruct (exists_ (position_at (_positions s) u)). }
  assert (HnumAB : _numPositions sAB = _numPositions sA).
  { rewrite (spe_numPositions _ _ _ _ _ _ EAB). cbn [msg_sender].
    by rewrite HpA. }
  split; [done|]. split.
  { rewrite (spe_aggLiquidity _ _ _ _ _ _ EAB), (spe_aggLiquidity _ _ _ _ _ _ EB),
      (spe_sumPriceLower _ _ _ _ _ _ EAB), (spe_sumPriceLower _ _ _ _ _ _ EB),
      (spe_sumPriceUpper _ _ _ _ _ _ EAB), (spe_sumPriceUpper _ _ _ _ _ _ EB).
    cbn [msg_sender ext_clear].
    repeat split; eapply resubmission_sum; rewrite ?HpA; try reflexivity.
    - apply (spe_aggLiquidity _ _ _ _ _ _ EA).
    - apply (spe_sumPriceLower _ _ _ _ _ _ EA).
    - apply (spe_sumPriceUpper _ _ _ _ _ _ EA). }
  split; [done|]. split.
  { intros Hnew Hrange. rewrite HnumA, Hnew. apply wrap32_small.
    unfold in_uint32. lia. }
  split; [by rewrite HpA|]. split; [done|].
  rewrite HnumAB, HnumA, (spe_numPositions _ _ _ _ _ _ EB). cbn [msg_sender].
  by destruct (exists_ (position_at (_positions s) u)).
Qed.

(** ** Counter co-derivation *)

Lemma coderived_deploy this deployer : coderived (deploy this deployer).
Proof. rewrite deploy_state. reflexivity. Qed.

Lemma coderived_outcome s tx s' : coderived s → outcome s tx s' → coderived s'.
Proof.
  unfold coderived.
  intros Hs [e _ | l lo up pf s1 _ _ _ Heff | v pf s1 _ _ _ Heff
            | f t s1 _ _ _ -> | o s1 _ _ _ ->]; [done | | | done | done].
  - rewrite (spe_numPositions _ _ _ _ _ _ Heff),
      (spe_twoTimesNumPositions _ _ _ _ _ _ Heff).
    destruct (exists_ _); [done|]. cbn [clear]. rewrite Hs.
    unfold wrap32. Z.div_mod_to_equations. lia.
  - by rewrite (sve_numPositions _ _ _ _ Heff),
      (sve_twoTimesNumPositions _ _ _ _ Heff).
Qed.

(** C3 as stated fails: after [2^31] identities have submitted a position,
    [numPositions] is [2^31] and [twoTimesNumPositions] is [0], not [2^32]. *)
Lemma coderivation_overflow :
  let s := crowd 2147483648 in
  reachable s
  ∧ clear (_numPositions s) = 2147483648
  ∧ clear (_twoTimesNumPositions s) = 0
  ∧ clear (_twoTimesNumPositions s) ≠ 2 * clear (_numPositions s).
Proof.
  cbv zeta.
  destruct (crowd_counters 2147483648) as [Hnum Htwo].
  change (wrap32 (Z.of_N 2147483648)) with 2147483648 in Hnum.
  change (wrap32 (2 * Z.of_N 2147483648)) with 0 in Htwo.
  split; [apply crowd_reachable|]. split; [exact Hnum|]. split; [exact Htwo|].
  rewrite Hnum, Htwo. discriminate.
Qed.

(** C3 (amended): [twoTimesNumPositions] equals [2 * numPositions] modulo
    [2^32] after deployment, the equality modulo [2^32] is kept by every
    transaction, and so it holds after every sequence of calls; it is an
    exact equality while [numPositions] is below [2^31]. *)
Theorem counter_coderivation_mod :
  (∀ this deployer, coderived (deploy this deployer))
  ∧ (∀ s tx, coderived s → coderived (step s tx))
  ∧ (∀ this deployer txs, coderived (run (deploy this deployer) txs))
  ∧ (∀ this deployer txs,
       let s := run (deploy this deployer) txs in
       0 ≤ clear (_numPositions s) < 2147483648 →
       clear (_twoTimesNumPositions s) = 2 * clear (_numPositions s)).
Proof.
  assert (Hrun : ∀ this deployer txs,
             coderived (run (deploy this deployer) txs)).
  { intros this deployer txs.
    apply (reachable_ind_outcome coderived);
      [apply coderived_deploy | intros s tx s'; apply coderived_outcome |].
    apply reachable_run, reachable_deploy. }
  split; [apply coderived_deploy|]. split; [|split; [exact Hrun|]].
  - intros s tx Hs. eapply coderived_outcome; [exact Hs | apply step_outcome].
  - intros this deployer txs s Hn. unfold s in *. rewrite (Hrun this deployer txs).
    apply wrap32_small. unfold in_uint32. lia.
Qed.

(** ** Suggestions *)

Lemma volatility_above s u t v :
  50 ≤ v →
  clear (_suggestedFeeRatio (step s (mkVolatility u t v)))
  = wrap32 (clear (_suggestedFeeRatio s) + 1)
  ∧ clear (_suggestedTickSpacing (step s (mkVolatility u t v)))
    = wrap32 (clear (_suggestedTickSpacing s) + 1).
Proof.
  intros Hv. apply Z.leb_le in Hv.
  destruct (step_mkVolatility s u t v) as [_ Heff].
  rewrite (sve_suggestedFeeRatio _ _ _ _ Heff),
    (sve_suggestedTickSpacing _ _ _ _ Heff).
  cbn [ext_clear clear]. by rewrite Hv.
Qed.




Lemma suggestions_outcome s tx s' :
  outcome s tx s' →
  (clear (_suggestedFeeRatio s') = clear (_suggestedFeeRatio s)
   ∧ clear (_suggestedTickSpacing s') = clear (_suggestedTickSpacing s))
  ∨ (clear (_suggestedFeeRatio s') = wrap32 (clear (_suggestedFeeRatio s) + 1)
     ∧ clear (_suggestedTickSpacing s')
       = wrap32 (clear (_suggestedTickSpacing s) + 1)).
Proof.
  intros [e _ | l lo up pf s1 _ _ _ Heff | v pf s1 _ _ _ Heff
         | f t s1 _ _ _ -> | o s1 _ _ _ ->].
  - by left.
  - left. by rewrite (spe_suggestedFeeRatio _ _ _ _ _ _ Heff),
      (spe_suggestedTickSpacing _ _ _ _ _ _ Heff).
  - rewrite (sve_suggestedFeeRatio _ _ _ _ Heff),
      (sve_suggestedTickSpacing _ _ _ _ Heff). cbn [clear].
    destruct (50 <=? ext_clear v); [by right | by left].
  - by left.
  - by left.
Qed.

(** C5 as stated fails: after [2^32 - 1] volatility signals above the
    threshold both fields hold [2^32 - 1], and one more signal takes them
    down to [0]. *)
Lemma suggestions_decrease :
  let s := surge 4294967295 in
  let s' := step s (mkVolatility 5 0 60) in
  reachable s
  ∧ clear (_suggestedFeeRatio s') < clear (_suggestedFeeRatio s)
  ∧ clear (_suggestedTickSpacing s') < clear (_suggestedTickSpacing s).
Proof.
  cbv zeta.
  destruct (surge_suggestions 4294967295) as [Hfee Htick].
  destruct (volatility_above (surge 4294967295) 5 0 60 ltac:(lia)) as [Hf Ht].
  rewrite Hfee in Hf. rewrite Htick in Ht.
  split; [apply surge_reachable|].
  rewrite Hf, Ht, Hfee, Htick. split; reflexivity.
Qed.

(** C5 (amended): both suggestion fields are zero after construction; every
    transaction either leaves both values as they are or adds one to both
    modulo [2^32]; hence a field below [2^32 - 1] never decreases. *)
Theorem suggestions_lifecycle_mod :
  (∀ this deployer,
     clear (_suggestedFeeRatio (deploy this deployer)) = 0
     ∧ clear (_suggestedTickSpacing (deploy this deployer)) = 0)
  ∧ (∀ s tx,
       (clear (_suggestedFeeRatio (step s tx)) = clear (_suggestedFeeRatio s)
        ∧ clear (_suggestedTickSpacing (step s tx))
          = clear (_suggestedTickSpacing s))
       ∨ (clear (_suggestedFeeRatio (step s tx))
          = wrap32 (clear (_suggestedFeeRatio s) + 1)
          ∧ clear (_suggestedTickSpacing (step s tx))
            = wrap32 (clear (_suggestedTickSpacing s) + 1)))
  ∧ (∀ s tx,
       0 ≤ clear (_suggestedFeeRatio s) < 4294967295 →
       clear (_suggestedFeeRatio s) ≤ clear (_suggestedFeeRatio (step s tx)))
  ∧ (∀ s tx,
       0 ≤ clear (_suggestedTickSpacing s) < 4294967295 →
       clear (_suggestedTickSpacing s)
       ≤ clear (_suggestedTickSpacing (step s tx))).
Proof.
  split; [intros; by rewrite deploy_state|].
  split; [intros s tx; apply (suggestions_outcome s tx), step_outcome|].
  split; intros s tx Hr;
    destruct (suggestions_outcome s tx _ (step_outcome s tx))
      as [[Hf Ht]|[Hf Ht]];
    rewrite ?Hf, ?Ht; try lia;
    rewrite wrap32_small; unfold in_uint32; lia.
Qed.

(** ** Governance *)

(** C6: called by the owner, [applyParameters] completes and stores the two
    given values whatever the storage held, leaves the suggestions alone and
    commutes with any change of the suggestion fields (it does not read
    them); called by anyone else it fails with [Unauthorized] and the
    storage stays as it was. *)
Theorem governance_gating (s : State) (msg : Msg) (f t : Z) :
  (msg_sender msg = _owner s →
   ∃ s', applyParameters msg f t s = Ok (tt, s')
     ∧ appliedFeeRatio s' = f ∧ appliedTickSpacing s' = t
     ∧ _suggestedFeeRatio s' = _suggestedFeeRatio s
     ∧ _suggestedTickSpacing s' = _suggestedTickSpacing s
     ∧ ∀ fee tick,
         applyParameters msg f t
           (set_suggestedFeeRatio fee (set_suggestedTickSpacing tick s))
         = Ok (tt, set_suggestedFeeRatio fee (set_suggestedTickSpacing tick s')))
  ∧ (msg_sender msg ≠ _owner s →
     applyParameters msg f t s = Err Unauthorized
     ∧ step s {| tx_msg := msg; tx_call := ApplyParameters f t |} = s).
Proof.
  split; intros Hown.
  - eexists. split; [by apply applyParameters_owner|].
    repeat split; try reflexivity.
    intros fee tick. by rewrite applyParameters_owner.
  - split; [by apply applyParameters_other|].
    unfold step, exec, dispatch. cbn [tx_call tx_msg].
    by rewrite applyParameters_other.
Qed.

(** ** Audit trail *)

Lemma actionHashes_outcome s tx s' :
  outcome s tx s' →
  _actionHashes s'
  = _actionHashes s ++ (if succeeds s tx then option_list (tx_digest tx) else []).
Proof.
  intros [e Hexec | l lo up pf s1 Hcall _ Hexec Heff
         | v pf s1 Hcall _ Hexec Heff | f t s1 Hcall _ Hexec ->
         | o s1 Hcall _ Hexec ->].
  - rewrite (proj2 (exec_fails _ _ _ Hexec)). by rewrite app_nil_r.
  - rewrite (exec_succeeds _ _ _ Hexec), (spe_actionHashes _ _ _ _ _ _ Heff).
    unfold tx_digest. by rewrite Hcall.
  - rewrite (exec_succeeds _ _ _ Hexec), (sve_actionHashes _ _ _ _ Heff).
    unfold tx_digest. by rewrite Hcall.
  - rewrite (exec_succeeds _ _ _ Hexec). unfold tx_digest. by rewrite Hcall.
  - rewrite (exec_succeeds _ _ _ Hexec). unfold tx_digest.
    destruct (tx_call tx); try discriminate; by rewrite app_nil_r.
Qed.

Lemma actionHashes_run s txs :
  _actionHashes (run s txs) = _actionHashes s ++ omap tx_digest (completed s txs).
Proof.
  revert s. induction txs as [|tx txs IH]; intros s.
  - by rewrite app_nil_r.
  - change (run s (tx :: txs)) with (run (step s tx) txs).
    rewrite IH, (actionHashes_outcome s tx _ (step_outcome s tx)).
    cbn [completed]. destruct (succeeds s tx).
    + rewrite <- app_assoc. cbn [omap list_omap].
      by destruct (tx_digest tx).
    + by rewrite app_nil_r.
Qed.

Lemma completed_sublist s txs : sublist (completed s txs) txs.
Proof.
  revert s. induction txs as [|tx txs IH]; intros s; [constructor|].
  cbn [completed]. destruct (succeeds s tx).
  - apply sublist_skip, IH.
  - apply sublist_cons, IH.
Qed.

(** The digests of a list of calls are those of its recorded calls. *)
Lemma omap_tx_digest (txs : list Tx) :
  Some <$> omap tx_digest txs = tx_digest <$> filter recorded txs.
Proof.
  induction txs as [|tx txs IH]; [done|].
  rewrite filter_cons. cbn [omap list_omap].
  destruct (decide (recorded tx)) as [[tag Htag]|Hn].
  - assert (Hd : tx_digest tx
                 = Some (action_digest tag (msg_sender (tx_msg tx))
                           (block_timestamp (tx_msg tx))))
      by (unfold tx_digest; by rewrite Htag).
    rewrite Hd, !fmap_cons, Hd. f_equal. exact IH.
  - assert (Hd : tx_digest tx = None).
    { unfold tx_digest. destruct (action_tag (tx_call tx)) eqn:Htag; [|done].
      destruct Hn. by eexists. }
    by rewrite Hd.
Qed.

Lemma length_omap_le {A B} (f : A → option B) (l : list A) :
  (length (omap f l) ≤ length l)%nat.
Proof.
  induction l as [|x l IH]; [done|].
  change (omap f (x :: l))
    with (match f x with Some y => y :: omap f l | None => omap f l end).
  destruct (f x); cbn [length]; lia.
Qed.

Lemma getActionsLength_spec s :
  getActionsLength s = Ok (Z.of_nat (length (_actionHashes s)), s).
Proof. destruct_state s. reflexivity. Qed.

Lemma getActionAt_spec s index :
  getActionAt index s
  = match _actionHashes s !! N.to_nat index with
    | Some h => Ok (h, s)
    | None => Err IndexOutOfRange
    end.
Proof.
  destruct_state s. unfold_ops. by destruct (log !! N.to_nat index).
Qed.

(** C7: after any sequence of calls, the log holds one entry per completed
    call of the three operations, in call order (the two ownership functions
    leave no entry); [getActionsLength] returns their number, the [i]-th
    entry is the digest of the packed (tag, caller, timestamp) of the [i]-th
    such call, and two calls with the same tag, caller and timestamp have
    the same digest whatever values they carry. *)
Theorem audit_completeness (this deployer : address) (txs : list Tx) :
  let s := run (deploy this deployer) txs in
  let calls := filter recorded (completed (deploy this deployer) txs) in
  sublist calls txs
  ∧ Some <$> _actionHashes s = tx_digest <$> calls
  ∧ getActionsLength s = Ok (Z.of_nat (length calls), s)
  ∧ (∀ i tx, calls !! i = Some tx →
       ∃ h, tx_digest tx = Some h
            ∧ getActionAt (N.of_nat i) s = Ok (h, s))
  ∧ (∀ tx tag, action_tag (tx_call tx) = Some tag →
       tx_digest tx
       = Some (keccak256 (abi_encodePacked tag (msg_sender (tx_msg tx))
                            (block_timestamp (tx_msg tx)))))
  ∧ (∀ tx1 tx2, tx_msg tx1 = tx_msg tx2 →
       action_tag (tx_call tx1) = action_tag (tx_call tx2) →
       tx_digest tx1 = tx_digest tx2).
Proof.
  intros s calls.
  assert (Hlog : Some <$> _actionHashes s = tx_digest <$> calls).
  { unfold s, calls. rewrite actionHashes_run, deploy_state.
    cbn [_actionHashes app]. apply omap_tx_digest. }
  split.
  { etrans; [apply sublist_filter | apply completed_sublist]. }
  split; [exact Hlog|]. split.
  { rewrite getActionsLength_spec. apply (f_equal length) in Hlog.
    rewrite !length_fmap in Hlog. by rewrite Hlog. }
  split.
  { intros i tx Hi. apply (f_equal (λ l, l !! i)) in Hlog.
    rewrite !list_lookup_fmap, Hi in Hlog. simpl in Hlog.
    rewrite getActionAt_spec, Nat2N.id.
    destruct (_actionHashes s !! i) as [h|]; simpl in Hlog; [|done].
    injection Hlog as Hlog. exists h. by rewrite <- Hlog. }
  split.
  { intros tx tag Htag. unfold tx_digest. by rewrite Htag. }
  intros tx1 tx2 Hmsg Htag. unfold tx_digest. by rewrite Hmsg, Htag.
Qed.

(** C9: [getActionAt] fails with [IndexOutOfRange] for every index at or
    beyond [getActionsLength], and below it returns the stored digest at
    that position and leaves the storage as it was. *)
Theorem getActionAt_lookup (s : State) (index : N) :
  ∃ n, getActionsLength s = Ok (n, s)
    ∧ (n ≤ Z.of_N index → getActionAt index s = Err IndexOutOfRange)
    ∧ (Z.of_N index < n →
       ∃ h, _actionHashes s !! N.to_nat index = Some h
            ∧ getActionAt index s = Ok (h, s)).
Proof.
  eexists. split; [apply getActionsLength_spec|]. rewrite getActionAt_spec.
  split; intros Hi.
  - rewrite lookup_ge_None_2; [done | lia].
  - destruct (lookup_lt_is_Some_2 (_actionHashes s) (N.to_nat index)) as [h Hh];
      [lia|].
    exists h. by rewrite Hh.
Qed.

(** ** Authorization *)

Lemma acl_allocated_deploy this deployer :
  acl_allocated (fhe (deploy this deployer)).
Proof.
  rewrite deploy_state. intros h Hh. project_state.
  repeat (apply acl_grant_is_Some in Hh as [<-|Hh]; [lia|]).
  rewrite lookup_empty in Hh. by destruct Hh.
Qed.

Lemma acl_allocated_outcome s tx s' :
  acl_allocated (fhe s) → outcome s tx s' → acl_allocated (fhe s').
Proof.
  intros Hs [e _ | l lo up pf s1 _ _ _ Heff | v pf s1 _ _ _ Heff
            | f t s1 _ _ _ -> | o s1 _ _ _ ->]; [done | | | done | done].
  - intros h Hh.
    destruct (spe_acl_dom _ _ _ _ _ _ Heff h Hh) as [Hold|Hnew]; [|done].
    specialize (Hs h Hold). rewrite (spe_next_handle _ _ _ _ _ _ Heff).
    destruct (exists_ _); lia.
  - intros h Hh.
    destruct (sve_acl_dom _ _ _ _ Heff h Hh) as [Hold|Hnew]; [|done].
    specialize (Hs h Hold). rewrite (sve_next_handle _ _ _ _ Heff). lia.
Qed.

Lemma acl_allocated_reachable s : reachable s → acl_allocated (fhe s).
Proof.
  apply (reachable_ind_outcome (λ s, acl_allocated (fhe s))).
  - apply acl_allocated_deploy.
  - intros s0 tx s1. apply acl_allocated_outcome.
Qed.

(** The constructor itself grants the two initial suggestion handles to the
    contract only: until the first [submitVolatility] no account can decrypt
    them. *)
Lemma constructor_grants this deployer :
  let s := deploy this deployer in
  allowed (fhe s) (handle (_suggestedFeeRatio s)) = {[this]}
  ∧ allowed (fhe s) (handle (_suggestedTickSpacing s)) = {[this]}.
Proof.
  rewrite deploy_state. cbv [allowed]. project_state.
  split; repeat (rewrite acl_grant_allowed; destruct (decide _); try lia);
    rewrite lookup_empty; simpl; apply set_eq; intros x;
    rewrite elem_of_union, elem_of_singleton, elem_of_empty; tauto.
Qed.

(** *** The rule, call by call *)

Ltac solve_member :=
  solve [repeat first [apply list_elem_of_here | apply list_elem_of_further]].

Lemma written_position s tx l lo up pf :
  tx_call tx = SubmitPosition l lo up pf → verifies pf = true →
  submitPosition_effect (tx_msg tx) l lo up s (step s tx) →
  written s tx
  = ([handle (_aggLiquidity (step s tx)); handle (_sumPriceLower (step s tx));
      handle (_sumPriceUpper (step s tx)); next_handle (fhe s);
      next_handle (fhe s) + 1; next_handle (fhe s) + 2]
     ++ if exists_ (position_at (_positions s) (msg_sender (tx_msg tx)))
        then []
        else [next_handle (fhe s) + 4; next_handle (fhe s) + 6])%N.
Proof.
  intros Hcall Hpf Heff. unfold written. rewrite Hcall, Hpf.
  pose proof (spe_positions _ _ _ _ _ _ Heff) as Hpos.
  pose proof (spe_numPositions _ _ _ _ _ _ Heff) as Hnum.
  pose proof (spe_twoTimesNumPositions _ _ _ _ _ _ Heff) as Htwo.
  set (s' := step s tx) in *. clearbody s'.
  rewrite Hpos, position_at_insert_eq. cbn [liquidity priceLower priceUpper handle].
  destruct (exists_ (position_at (_positions s) (msg_sender (tx_msg tx))));
    [reflexivity|].
  by rewrite Hnum, Htwo.
Qed.

Lemma written_volatility s tx v pf :
  tx_call tx = SubmitVolatility v pf → verifies pf = true →
  submitVolatility_effect (tx_msg tx) v s (step s tx) →
  written s tx = [next_handle (fhe s) + 5; next_handle (fhe s) + 7]%N.
Proof.
  intros Hcall Hpf Heff. unfold written. rewrite Hcall, Hpf.
  by rewrite (sve_suggestedFeeRatio _ _ _ _ Heff),
    (sve_suggestedTickSpacing _ _ _ _ Heff).
Qed.


Lemma regrant_rule_position s tx l lo up pf :
  acl_allocated (fhe s) →
  tx_call tx = SubmitPosition l lo up pf → verifies pf = true →
  submitPosition_effect (tx_msg tx) l lo up s (step s tx) →
  regrant_rule s (step s tx) (msg_sender (tx_msg tx)) (written s tx).
Proof.
  intros Hacl Hcall Hpf Heff.
  rewrite (written_position s tx l lo up pf Hcall Hpf Heff).
  set (s' := step s tx) in *. clearbody s'.
  set (u := msg_sender (tx_msg tx)) in *.
  pose proof (spe_next_handle _ _ _ _ _ _ Heff) as Hnext.
  destruct (spe_sum_handles _ _ _ _ _ _ Heff) as (Ha & Hlo & Hup).
  pose proof (spe_acl_stored _ _ _ _ _ _ Heff) as Hstored.
  pose proof (spe_acl_counters _ _ _ _ _ _ Heff) as Hcount.
  pose proof (spe_acl_other _ _ _ _ _ _ Heff) as Hother.
  pose proof (spe_numPositions _ _ _ _ _ _ Heff) as Hnum.
  pose proof (spe_twoTimesNumPositions _ _ _ _ _ _ Heff) as Htwo.
  pose proof (spe_positions _ _ _ _ _ _ Heff) as Hpos.
  pose proof (spe_suggestedFeeRatio _ _ _ _ _ _ Heff) as Hfee.
  pose proof (spe_suggestedTickSpacing _ _ _ _ _ _ Heff) as Htick.
  fold u in Hnext, Hstored, Hcount, Hother, Hnum, Htwo, Hpos.
  assert (Hfresh : ∀ h, (next_handle (fhe s) ≤ h)%N →
            three_parties s u ∪ allowed (fhe s) h = three_parties s u).
  { intros h Hh. rewrite (allowed_unallocated _ _ Hacl Hh).
    apply (right_id_L ∅ (∪)). }
  clear Heff.
  destruct (exists_ (position_at (_positions s) u)) eqn:Hex; cbn [app] in *.
  - split; [|split; [exact Hother|split; [|split]]].
    + intros h Hh. pose proof (Hstored h Hh) as Hal.
      assert (Hr : (next_handle (fhe s) ≤ h < next_handle (fhe s'))%N)
        by (split_members Hh; rewrite ?Ha, ?Hlo, ?Hup; lia).
      split; [exact Hr|]. rewrite Hal. apply Hfresh. lia.
    + intros h Hh Hge. rewrite (Hother h Hh). by apply allowed_unallocated.
    + repeat apply Forall_cons_2; [..|apply Forall_nil_2];
        first [ by left | right; solve_member ].
    + intros w p. rewrite Hpos.
      destruct (decide (u = w)) as [<-|Hne].
      * rewrite lookup_insert_eq. intros [= <-]. right.
        cbn [liquidity priceLower priceUpper handle].
        repeat split; solve_member.
      * rewrite lookup_insert_ne by done. by left.
  - specialize (Hcount eq_refl).
    split; [|split; [exact Hother|split; [|split]]].
    + intros h Hh.
      assert (Hr : (next_handle (fhe s) ≤ h < next_handle (fhe s'))%N)
        by (split_members Hh; rewrite ?Ha, ?Hlo, ?Hup; lia).
      split; [exact Hr|].
      assert (Hal : allowed (fhe s') h = three_parties s u ∪ allowed (fhe s) h).
      { split_members Hh;
          first [ apply Hstored; solve_member | apply Hcount; solve_member ]. }
      rewrite Hal. apply Hfresh. lia.
    + intros h Hh Hge. rewrite (Hother h Hh). by apply allowed_unallocated.
    + repeat apply Forall_cons_2; [..|apply Forall_nil_2]; cbv beta;
        rewrite ?Hnum, ?Htwo;
        first [ by left | right; cbn [handle]; solve_member ].
    + intros w p. rewrite Hpos.
      destruct (decide (u = w)) as [<-|Hne].
      * rewrite lookup_insert_eq. intros [= <-]. right.
        cbn [liquidity priceLower priceUpper handle].
        repeat split; solve_member.
      * rewrite lookup_insert_ne by done. by left.
Qed.

Lemma regrant_rule_volatility s tx v pf :
  acl_allocated (fhe s) →
  tx_call tx = SubmitVolatility v pf → verifies pf = true →
  submitVolatility_effect (tx_msg tx) v s (step s tx) →
  regrant_rule s (step s tx) (msg_sender (tx_msg tx)) (written s tx).
Proof.
  intros Hacl Hcall Hpf Heff.
  rewrite (written_volatility s tx v pf Hcall Hpf Heff).
  set (s' := step s tx) in *. clearbody s'.
  set (u := msg_sender (tx_msg tx)) in *.
  pose proof (sve_next_handle _ _ _ _ Heff) as Hnext.
  pose proof (sve_acl_stored _ _ _ _ Heff) as Hstored.
  pose proof (sve_acl_other _ _ _ _ Heff) as Hother.
  fold u in Hstored.
  split; [|split; [exact Hother|split; [|split]]].
  - intros h Hh. pose proof (Hstored h Hh) as Hal.
    assert (Hr : (next_handle (fhe s) ≤ h < next_handle (fhe s'))%N)
      by (split_members Hh; lia).
    split; [exact Hr|]. rewrite Hal, (allowed_unallocated _ _ Hacl) by lia.
    apply (right_id_L ∅ (∪)).
  - intros h Hh Hge. rewrite (Hother h Hh). by apply allowed_unallocated.
  - repeat apply Forall_cons_2; [..|apply Forall_nil_2]; cbv beta;
      rewrite ?(sve_suggestedFeeRatio _ _ _ _ Heff),
        ?(sve_suggestedTickSpacing _ _ _ _ Heff);
      first [ left; by destruct Heff | right; cbn [handle]; solve_member ].
  - intros w p. rewrite (sve_positions _ _ _ _ Heff). by left.
Qed.




(** ** Word size *)

Lemma all_uint32_deploy this deployer : all_uint32 (deploy this deployer).
Proof.
  rewrite deploy_state. unfold all_uint32, in_uint32. simpl.
  repeat split; try lia; by rewrite lookup_empty in *.
Qed.

Lemma all_uint32_outcome s tx s' :
  wf_call (tx_call tx) → all_uint32 s → outcome s tx s' → all_uint32 s'.
Proof.
  intros Hwf (Ha & Hlo & Hup & Hn & Ht & Hf & Hk & Hpos)
    [e _ | l lo up pf s1 Hcall _ _ Heff | v pf s1 Hcall _ _ Heff
    | f t s1 Hcall _ _ -> | o s1 Hcall _ _ ->]; [| | | done | done].
  - done.
  - rewrite Hcall in Hwf. destruct Hwf as (Wl & Wlo & Wup).
    unfold all_uint32.
    rewrite (spe_aggLiquidity _ _ _ _ _ _ Heff),
      (spe_sumPriceLower _ _ _ _ _ _ Heff), (spe_sumPriceUpper _ _ _ _ _ _ Heff),
      (spe_numPositions _ _ _ _ _ _ Heff),
      (spe_twoTimesNumPositions _ _ _ _ _ _ Heff),
      (spe_suggestedFeeRatio _ _ _ _ _ _ Heff),
      (spe_suggestedTickSpacing _ _ _ _ _ _ Heff),
      (spe_positions _ _ _ _ _ _ Heff).
    assert (Hc : ∀ (b : bool) (x y : euint32),
               in_uint32 (clear x) → in_uint32 (clear y) →
               in_uint32 (clear (if b then x else y))) by (by intros []).
    refine (conj _ (conj _ (conj _ (conj _ (conj _ (conj _ (conj _ _)))))));
      try apply wrap32_range; try assumption;
      try (apply Hc; [assumption | apply wrap32_range]).
    intros u p Hp.
    destruct (decide (msg_sender (tx_msg tx) = u)) as [<-|Hne].
    + rewrite lookup_insert_eq in Hp. injection Hp as <-. done.
    + rewrite lookup_insert_ne in Hp by done. by apply (Hpos u).
  - unfold all_uint32.
    rewrite (sve_aggLiquidity _ _ _ _ Heff), (sve_sumPriceLower _ _ _ _ Heff),
      (sve_sumPriceUpper _ _ _ _ Heff), (sve_numPositions _ _ _ _ Heff),
      (sve_twoTimesNumPositions _ _ _ _ Heff),
      (sve_suggestedFeeRatio _ _ _ _ Heff),
      (sve_suggestedTickSpacing _ _ _ _ Heff), (sve_positions _ _ _ _ Heff).
    cbn [clear].
    refine (conj _ (conj _ (conj _ (conj _ (conj _ (conj _ (conj _ _)))))));
      try assumption;
      destruct (50 <=? ext_clear v); try assumption; apply wrap32_range.
Qed.

Lemma all_uint32_run s txs :
  Forall (λ tx, wf_call (tx_call tx)) txs →
  all_uint32 s → all_uint32 (run s txs).
Proof.
  intros Hwf. revert s. induction Hwf as [|tx txs Htx _ IH]; intros s Hs.
  - exact Hs.
  - change (run s (tx :: txs)) with (run (step s tx) txs). apply IH.
    eapply all_uint32_outcome; [exact Htx | exact Hs | apply step_outcome].
Qed.

Lemma first_submission_counters s u t l lo up :
  exists_ (position_at (_positions s) u) = false →
  clear (_numPositions (step s (mkSubmit u t l lo up)))
  = wrap32 (clear (_numPositions s) + 1)
  ∧ clear (_twoTimesNumPositions (step s (mkSubmit u t l lo up)))
    = wrap32 (clear (_twoTimesNumPositions s) + 2).
Proof.
  intros Hex. destruct (step_mkSubmit s u t l lo up) as [_ Heff].
  rewrite (spe_numPositions _ _ _ _ _ _ Heff),
    (spe_twoTimesNumPositions _ _ _ _ _ _ Heff).
  cbn [msg_sender]. by rewrite Hex.
Qed.

Lemma FHE_add_mod a b s :
  ∃ r s', FHE_add a b s = Ok (r, s')
          ∧ clear r = (clear a + clear b) mod 4294967296.
Proof. destruct_state s. by do 2 eexists. Qed.

Lemma FHE_sub_mod a b s :
  ∃ r s', FHE_sub a b s = Ok (r, s')
          ∧ clear r = (clear a - clear b) mod 4294967296.
Proof. destruct_state s. by do 2 eexists. Qed.

(** C10: encrypted quantities are 32-bit: [FHE.add] and [FHE.sub] always
    return and compute modulo [2^32]; with well-formed calldata every stored
    plaintext stays in [0, 2^32); the aggregate and co-derivation equalities
    hold modulo [2^32] in every execution and fail as exact equalities in
    some reachable state; a replace always completes, also when the stored
    sum is smaller than the value taken out, with the wrapped result; the
    additions of [submitVolatility] and of the first-time branch of
    [submitPosition] wrap as well: a suggestion and the counter at
    [2^32 - 1] become [0]. *)
Theorem uint32_arithmetic :
  (∀ a b s, ∃ r s', FHE_add a b s = Ok (r, s')
                    ∧ clear r = (clear a + clear b) mod 4294967296)
  ∧ (∀ a b s, ∃ r s', FHE_sub a b s = Ok (r, s')
                      ∧ clear r = (clear a - clear b) mod 4294967296)
  ∧ (∀ this deployer txs,
       Forall (λ tx, wf_call (tx_call tx)) txs →
       all_uint32 (run (deploy this deployer) txs))
  ∧ (∀ this deployer txs,
       sums_consistent (run (deploy this deployer) txs)
       ∧ coderived (run (deploy this deployer) txs))
  ∧ (∃ s, reachable s
          ∧ clear (_aggLiquidity s) ≠ sum_existing liquidity (_positions s))
  ∧ (∃ s, reachable s
          ∧ clear (_twoTimesNumPositions s) ≠ 2 * clear (_numPositions s))
  ∧ (∀ s u t l lo up,
       succeeds s (mkSubmit u t l lo up) = true
       ∧ clear (_aggLiquidity (step s (mkSubmit u t l lo up)))
         = wrap32 (without liquidity (_aggLiquidity s)
                     (position_at (_positions s) u) + l)
       ∧ clear (_sumPriceLower (step s (mkSubmit u t l lo up)))
         = wrap32 (without priceLower (_sumPriceLower s)
                     (position_at (_positions s) u) + lo)
       ∧ clear (_sumPriceUpper (step s (mkSubmit u t l lo up)))
         = wrap32 (without priceUpper (_sumPriceUpper s)
                     (position_at (_positions s) u) + up))
  ∧ (let s := run (deploy 1000 1)
                [mkSubmit 7 10 4294967295 0 0; mkSubmit 8 11 2 0 0] in
     clear (_aggLiquidity s) = 1
     ∧ clear (liquidity (position_at (_positions s) 7)) = 4294967295
     ∧ succeeds s (mkSubmit 7 12 0 0 0) = true
     ∧ clear (_aggLiquidity (step s (mkSubmit 7 12 0 0 0))) = 2)
  ∧ (∀ s u t v, 50 ≤ v →
       clear (_suggestedFeeRatio (step s (mkVolatility u t v)))
       = wrap32 (clear (_suggestedFeeRatio s) + 1)
       ∧ clear (_suggestedTickSpacing (step s (mkVolatility u t v)))
         = wrap32 (clear (_suggestedTickSpacing s) + 1))
  ∧ (∀ s u t l lo up,
       exists_ (position_at (_positions s) u) = false →
       clear (_numPositions (step s (mkSubmit u t l lo up)))
       = wrap32 (clear (_numPositions s) + 1)
       ∧ clear (_twoTimesNumPositions (step s (mkSubmit u t l lo up)))
         = wrap32 (clear (_twoTimesNumPositions s) + 2))
  ∧ (let s := surge 4294967295 in
     let s' := step s (mkVolatility 5 0 60) in
     reachable s
     ∧ clear (_suggestedFeeRatio s) = 4294967295
     ∧ clear (_suggestedTickSpacing s) = 4294967295
     ∧ clear (_suggestedFeeRatio s') = 0
     ∧ clear (_suggestedTickSpacing s') = 0)
  ∧ (let s := crowd 4294967295 in
     let s' := step s (mkSubmit 4294967296 0 1 1 2) in
     reachable s
     ∧ clear (_numPositions s) = 4294967295
     ∧ clear (_numPositions s') = 0).
Proof.
  split; [apply FHE_add_mod|]. split; [apply FHE_sub_mod|].
  split; [intros; by apply all_uint32_run, all_uint32_deploy|].
  split.
  { intros this deployer txs.
    assert (Hr : reachable (run (deploy this deployer) txs))
      by apply reachable_run, reachable_deploy.
    split; [by apply sums_consistent_reachable|].
    revert Hr. apply (reachable_ind_outcome coderived).
    - apply coderived_deploy.
    - intros s tx s'. apply coderived_outcome. }
  split.
  { exists (run (deploy 1000 1)
              [mkSubmit 7 10 2147483648 100 200; mkSubmit 8 11 2147483648 90 210]).
    split; [apply reachable_run, reachable_deploy|].
    vm_compute. discriminate. }
  split.
  { exists (crowd 2147483648). split; [apply crowd_reachable|].
    destruct (crowd_counters 2147483648) as [-> ->]. discriminate. }
  split.
  { intros s u t l lo up. destruct (step_mkSubmit s u t l lo up) as [Hok Heff].
    split; [exact Hok|].
    rewrite (spe_aggLiquidity _ _ _ _ _ _ Heff),
      (spe_sumPriceLower _ _ _ _ _ _ Heff), (spe_sumPriceUpper _ _ _ _ _ _ Heff).
    done. }
  split; [vm_compute; repeat split; reflexivity|].
  split; [intros s u t v Hv; by apply volatility_above|].
  split; [intros s u t l lo up Hex; by apply first_submission_counters|].
  split.
  { cbv zeta.
    destruct (surge_suggestions 4294967295) as [Hfee Htick].
    destruct (volatility_above (surge 4294967295) 5 0 60 ltac:(lia)) as [Hf Ht].
    rewrite Hfee in Hf. rewrite Htick in Ht.
    split; [apply surge_reachable|].
    split; [exact Hfee|]. split; [exact Htick|].
    split; [exact Hf | exact Ht]. }
  cbv zeta.
  pose proof (crowd_newcomer 4294967295 4294967296 ltac:(lia)) as Hnew.
  pose proof (proj1 (crowd_counters 4294967295)) as Hnum.
  pose proof (proj1 (first_submission_counters (crowd 4294967295) 4294967296
                       0 1 1 2 Hnew)) as Hn.
  rewrite Hnum in Hn.
  split; [apply crowd_reachable|]. split; [exact Hnum | exact Hn].
Qed.

(** * Further properties of the contract *)

(** ** The sums are a function of the latest submissions *)

Lemma contribution_empty field : contribution field empty_position = 0.
Proof. reflexivity. Qed.

Lemma sum_existing_split field (m : gmap N Position) i :
  sum_existing field m
  = contribution field (position_at m i) + sum_existing field (delete i m).
Proof.
  unfold position_at. destruct (m !! i) as [q|] eqn:Hi; simpl.
  - by apply sum_existing_delete.
  - rewrite delete_id by done. rewrite contribution_empty. lia.
Qed.

Lemma sum_existing_ext field (m1 m2 : gmap N Position) :
  (∀ u, contribution field (position_at m1 u)
        = contribution field (position_at m2 u)) →
  sum_existing field m1 = sum_existing field m2.
Proof.
  revert m2. induction m1 as [|i x m Hi IH] using map_ind; intros m2 Hext.
  - rewrite sum_existing_empty.
    induction m2 as [|j y m2 Hj IH2] using map_ind.
    + by rewrite sum_existing_empty.
    + rewrite sum_existing_fresh by done.
      pose proof (Hext j) as Hy. rewrite position_at_insert_eq in Hy.
      unfold position_at in Hy at 1. rewrite lookup_empty in Hy. simpl in Hy.
      rewrite contribution_empty in Hy. rewrite <- Hy, <- IH2; [lia|].
      intros u. destruct (decide (j = u)) as [<-|Hne].
      * unfold position_at. by rewrite lookup_empty, Hj.
      * rewrite (Hext u). by rewrite position_at_insert_ne.
  - rewrite sum_existing_fresh by done.
    rewrite (sum_existing_split field m2 i).
    pose proof (Hext i) as Hx. rewrite position_at_insert_eq in Hx.
    rewrite Hx, (IH (delete i m2)); [done|].
    intros u. destruct (decide (i = u)) as [<-|Hne].
    + unfold position_at. by rewrite Hi, lookup_delete_eq.
    + pose proof (Hext u) as Hu. rewrite position_at_insert_ne in Hu by done.
      rewrite Hu. unfold position_at. by rewrite lookup_delete_ne.
Qed.

Lemma position_matches_contribution p q o :
  position_matches p o → position_matches q o →
  contribution liquidity p = contribution liquidity q
  ∧ contribution priceLower p = contribution priceLower q
  ∧ contribution priceUpper p = contribution priceUpper q.
Proof.
  unfold contribution. destruct o as [[[l lo] up]|]; simpl.
  - intros (-> & -> & -> & ->) (-> & -> & -> & ->). done.
  - intros -> ->. done.
Qed.

Lemma latest_determines_stored_sums (this1 deployer1 this2 deployer2 : address)
    (txs1 txs2 : list Tx) :
  (∀ u, latest_submission u txs1 = latest_submission u txs2) →
  let s1 := run (deploy this1 deployer1) txs1 in
  let s2 := run (deploy this2 deployer2) txs2 in
  sum_existing liquidity (_positions s1) = sum_existing liquidity (_positions s2)
  ∧ sum_existing priceLower (_positions s1)
    = sum_existing priceLower (_positions s2)
  ∧ sum_existing priceUpper (_positions s1)
    = sum_existing priceUpper (_positions s2).
Proof.
  intros Hsame s1 s2.
  assert (Hc : ∀ u,
    contribution liquidity (position_at (_positions s1) u)
    = contribution liquidity (position_at (_positions s2) u)
    ∧ contribution priceLower (position_at (_positions s1) u)
      = contribution priceLower (position_at (_positions s2) u)
    ∧ contribution priceUpper (position_at (_positions s1) u)
      = contribution priceUpper (position_at (_positions s2) u)).
  { intros u.
    apply (position_matches_contribution _ _ (latest_submission u txs1)).
    - apply positions_latest.
    - rewrite Hsame. apply positions_latest. }
  repeat split; apply sum_existing_ext; intros u; apply Hc.
Qed.

(** X1: two executions (of possibly different deployments) in which every
    identity has the same most recent accepted submission end with the same
    three decrypted sums, whatever else the two call sequences contain. *)
Theorem sums_depend_on_latest (this1 deployer1 this2 deployer2 : address)
    (txs1 txs2 : list Tx) :
  (∀ u, latest_submission u txs1 = latest_submission u txs2) →
  let s1 := run (deploy this1 deployer1) txs1 in
  let s2 := run (deploy this2 deployer2) txs2 in
  clear (_aggLiquidity s1) = clear (_aggLiquidity s2)
  ∧ clear (_sumPriceLower s1) = clear (_sumPriceLower s2)
  ∧ clear (_sumPriceUpper s1) = clear (_sumPriceUpper s2).
Proof.
  intros Hsame s1 s2.
  destruct (sums_consistent_reachable s1) as (Hl1 & Hlo1 & Hup1);
    [apply reachable_run, reachable_deploy|].
  destruct (sums_consistent_reachable s2) as (Hl2 & Hlo2 & Hup2);
    [apply reachable_run, reachable_deploy|].
  destruct (latest_determines_stored_sums this1 deployer1 this2 deployer2
              txs1 txs2 Hsame) as (El & Elo & Eup).
  rewrite Hl1, Hl2, Hlo1, Hlo2, Hup1, Hup2.
  unfold s1, s2. by rewrite El, Elo, Eup.
Qed.

(** [sums_depend_on_latest] on a resubmission: identity 7 submits twice in
    the first execution and only its second values in the other. *)
Lemma sums_depend_on_latest_witness :
  let s1 := run (deploy 1000 1)
              [mkSubmit 7 10 10 100 200; mkVolatility 8 11 60;
               mkSubmit 7 12 15 90 210] in
  let s2 := run (deploy 2000 2) [mkSubmit 7 20 15 90 210] in
  clear (_aggLiquidity s1) = clear (_aggLiquidity s2)
  ∧ clear (_sumPriceLower s1) = clear (_sumPriceLower s2)
  ∧ clear (_sumPriceUpper s1) = clear (_sumPriceUpper s2).
Proof.
  apply (sums_depend_on_latest 1000 1 2000 2).
  intros u. unfold latest_submission, submitted_by. simpl.
  destruct (bool_decide (7%N = u)); reflexivity.
Defined.

Lemma latest_submission_app u txs1 txs2 :
  latest_submission u (txs1 ++ txs2)
  = match latest_submission u txs2 with
    | Some v => Some v
    | None => latest_submission u txs1
    end.
Proof.
  induction txs2 as [|tx txs2 IH] using rev_ind.
  - by rewrite app_nil_r.
  - rewrite app_assoc, !latest_submission_snoc.
    destruct (submitted_by u tx); [done | exact IH].
Qed.

(** X2: an earlier submission of an identity that submits again later leaves
    no trace in the sums, whatever calls by anyone lie in between: removing
    it from the history gives the same three decrypted sums. *)
Theorem superseded_submission_forgotten (this deployer : address)
    (before after : list Tx) (u : address) (t l lo up : Z) :
  is_Some (latest_submission u after) →
  let s1 := run (deploy this deployer)
              (before ++ mkSubmit u t l lo up :: after) in
  let s2 := run (deploy this deployer) (before ++ after) in
  clear (_aggLiquidity s1) = clear (_aggLiquidity s2)
  ∧ clear (_sumPriceLower s1) = clear (_sumPriceLower s2)
  ∧ clear (_sumPriceUpper s1) = clear (_sumPriceUpper s2).
Proof.
  intros [v Hv] s1 s2.
  destruct (sums_consistent_reachable s1) as (Hl1 & Hlo1 & Hup1);
    [apply reachable_run, reachable_deploy|].
  destruct (sums_consistent_reachable s2) as (Hl2 & Hlo2 & Hup2);
    [apply reachable_run, reachable_deploy|].
  destruct (latest_determines_stored_sums this deployer this deployer
              (before ++ mkSubmit u t l lo up :: after) (before ++ after))
    as (El & Elo & Eup).
  { intros w.
    change (mkSubmit u t l lo up :: after)
      with ([mkSubmit u t l lo up] ++ after).
    rewrite app_assoc, (latest_submission_app w (before ++ _) after),
      (latest_submission_app w before after), latest_submission_snoc.
    destruct (latest_submission w after) as [x|] eqn:Hw; [done|].
    unfold submitted_by, mkSubmit. cbn [tx_call tx_msg msg_sender verifies].
    case_bool_decide as Huw; [|done].
    subst w. by rewrite Hv in Hw. }
  rewrite Hl1, Hl2, Hlo1, Hlo2, Hup1, Hup2.
  unfold s1, s2. by rewrite El, Elo, Eup.
Qed.

(** [superseded_submission_forgotten]: identity 7 submits, identity 8 submits
    and signals, identity 7 submits again. *)
Lemma superseded_submission_forgotten_witness :
  let before := [mkVolatility 9 5 10] in
  let after := [mkSubmit 8 11 3 4 5; mkSubmit 7 12 15 90 210] in
  let s1 := run (deploy 1000 1) (before ++ mkSubmit 7 10 10 100 200 :: after) in
  let s2 := run (deploy 1000 1) (before ++ after) in
  clear (_aggLiquidity s1) = clear (_aggLiquidity s2)
  ∧ clear (_sumPriceLower s1) = clear (_sumPriceLower s2)
  ∧ clear (_sumPriceUpper s1) = clear (_sumPriceUpper s2).
Proof.
  apply (superseded_submission_forgotten 1000 1 [mkVolatility 9 5 10]
           [mkSubmit 8 11 3 4 5; mkSubmit 7 12 15 90 210] 7 10 10 100 200).
  vm_compute. eauto.
Defined.

(** ** Submissions of different identities commute *)

Lemma commute_sums (ex_u ex_v : bool) (a pu pv lu lv : Z) :
  wrap32 ((if ex_v
           then wrap32 (wrap32 ((if ex_u then wrap32 (a - pu) else a) + lu) - pv)
           else wrap32 ((if ex_u then wrap32 (a - pu) else a) + lu)) + lv)
  = wrap32 ((if ex_u
             then wrap32 (wrap32 ((if ex_v then wrap32 (a - pv) else a) + lv) - pu)
             else wrap32 ((if ex_v then wrap32 (a - pv) else a) + lv)) + lu).
Proof.
  destruct ex_u, ex_v; unfold wrap32; Z.div_mod_to_equations; lia.
Qed.

Lemma commute_counter (ex_u ex_v : bool) (n k : Z) :
  (if ex_v then (if ex_u then n else wrap32 (n + k))
   else wrap32 ((if ex_u then n else wrap32 (n + k)) + k))
  = (if ex_u then (if ex_v then n else wrap32 (n + k))
     else wrap32 ((if ex_v then n else wrap32 (n + k)) + k)).
Proof.
  destruct ex_u, ex_v; reflexivity.
Qed.

(** X3: for two different identities and any state, the order of their two
    submissions does not matter for what can be decrypted: the three sums,
    the two counters and every position hold the same plaintexts. *)
Theorem submissions_commute (s : State) (u v : address)
    (tu lu lou upu tv lv lov upv : Z) :
  u ≠ v →
  let txu := mkSubmit u tu lu lou upu in
  let txv := mkSubmit v tv lv lov upv in
  let s1 := step (step s txu) txv in
  let s2 := step (step s txv) txu in
  clear (_aggLiquidity s1) = clear (_aggLiquidity s2)
  ∧ clear (_sumPriceLower s1) = clear (_sumPriceLower s2)
  ∧ clear (_sumPriceUpper s1) = clear (_sumPriceUpper s2)
  ∧ clear (_numPositions s1) = clear (_numPositions s2)
  ∧ clear (_twoTimesNumPositions s1) = clear (_twoTimesNumPositions s2)
  ∧ ∀ w, position_clear (position_at (_positions s1) w)
         = position_clear (position_at (_positions s2) w).
Proof.
  intros Huv txu txv s1 s2. subst s1 s2 txu txv.
  destruct (step_mkSubmit s u tu lu lou upu) as [_ Eu].
  destruct (step_mkSubmit s v tv lv lov upv) as [_ Ev].
  destruct (step_mkSubmit (step s (mkSubmit u tu lu lou upu)) v tv lv lov upv)
    as [_ Euv].
  destruct (step_mkSubmit (step s (mkSubmit v tv lv lov upv)) u tu lu lou upu)
    as [_ Evu].
  set (su := step s (mkSubmit u tu lu lou upu)) in *.
  set (sv := step s (mkSubmit v tv lv lov upv)) in *.
  set (suv := step su (mkSubmit v tv lv lov upv)) in *.
  set (svu := step sv (mkSubmit u tu lu lou upu)) in *.
  cbn [msg_sender ext_clear] in *.
  assert (Hpv : position_at (_positions su) v = position_at (_positions s) v).
  { rewrite (spe_positions _ _ _ _ _ _ Eu). cbn [msg_sender].
    by apply position_at_insert_ne. }
  assert (Hpu : position_at (_positions sv) u = position_at (_positions s) u).
  { rewrite (spe_positions _ _ _ _ _ _ Ev). cbn [msg_sender].
    apply position_at_insert_ne. congruence. }
  split; [|split; [|split; [|split; [|split]]]].
  - rewrite (spe_aggLiquidity _ _ _ _ _ _ Euv), (spe_aggLiquidity _ _ _ _ _ _ Evu).
    cbn [msg_sender ext_clear]. unfold without. rewrite Hpv, Hpu.
    rewrite (spe_aggLiquidity _ _ _ _ _ _ Eu), (spe_aggLiquidity _ _ _ _ _ _ Ev).
    cbn [msg_sender ext_clear]. unfold without. apply commute_sums.
  - rewrite (spe_sumPriceLower _ _ _ _ _ _ Euv),
      (spe_sumPriceLower _ _ _ _ _ _ Evu).
    cbn [msg_sender ext_clear]. unfold without. rewrite Hpv, Hpu.
    rewrite (spe_sumPriceLower _ _ _ _ _ _ Eu), (spe_sumPriceLower _ _ _ _ _ _ Ev).
    cbn [msg_sender ext_clear]. unfold without. apply commute_sums.
  - rewrite (spe_sumPriceUpper _ _ _ _ _ _ Euv),
      (spe_sumPriceUpper _ _ _ _ _ _ Evu).
    cbn [msg_sender ext_clear]. unfold without. rewrite Hpv, Hpu.
    rewrite (spe_sumPriceUpper _ _ _ _ _ _ Eu), (spe_sumPriceUpper _ _ _ _ _ _ Ev).
    cbn [msg_sender ext_clear]. unfold without. apply commute_sums.
  - rewrite (spe_numPositions _ _ _ _ _ _ Euv), (spe_numPositions _ _ _ _ _ _ Evu).
    cbn [msg_sender]. rewrite Hpv, Hpu.
    rewrite (spe_numPositions _ _ _ _ _ _ Eu), (spe_numPositions _ _ _ _ _ _ Ev).
    cbn [msg_sender].
    pose proof (commute_counter (exists_ (position_at (_positions s) u))
                  (exists_ (position_at (_positions s) v))
                  (clear (_numPositions s)) 1) as Hc.
    destruct (exists_ (position_at (_positions s) u)),
      (exists_ (position_at (_positions s) v)); exact Hc.
  - rewrite (spe_twoTimesNumPositions _ _ _ _ _ _ Euv),
      (spe_twoTimesNumPositions _ _ _ _ _ _ Evu).
    cbn [msg_sender]. rewrite Hpv, Hpu.
    rewrite (spe_twoTimesNumPositions _ _ _ _ _ _ Eu),
      (spe_twoTimesNumPositions _ _ _ _ _ _ Ev).
    cbn [msg_sender].
    pose proof (commute_counter (exists_ (position_at (_positions s) u))
                  (exists_ (position_at (_positions s) v))
                  (clear (_twoTimesNumPositions s)) 2) as Hc.
    destruct (exists_ (position_at (_positions s) u)),
      (exists_ (position_at (_positions s) v)); exact Hc.
  - intros w.
    rewrite (spe_positions _ _ _ _ _ _ Euv), (spe_positions _ _ _ _ _ _ Evu),
      (spe_positions _ _ _ _ _ _ Eu), (spe_positions _ _ _ _ _ _ Ev).
    cbn [msg_sender ext_clear].
    destruct (decide (w = u)) as [->|Hwu]; [|destruct (decide (w = v)) as [->|Hwv]].
    + rewrite position_at_insert_ne by congruence.
      by rewrite !position_at_insert_eq.
    + rewrite position_at_insert_eq.
      rewrite (position_at_insert_ne _ u v) by done.
      by rewrite position_at_insert_eq.
    + rewrite !position_at_insert_ne by congruence. done.
Qed.

(** [submissions_commute] for identities 7 and 8 right after deployment. *)
Lemma submissions_commute_witness :
  let s := deploy 1000 1 in
  let s1 := step (step s (mkSubmit 7 10 10 100 200)) (mkSubmit 8 11 3 4 5) in
  let s2 := step (step s (mkSubmit 8 11 3 4 5)) (mkSubmit 7 10 10 100 200) in
  clear (_aggLiquidity s1) = clear (_aggLiquidity s2)
  ∧ clear (_sumPriceLower s1) = clear (_sumPriceLower s2)
  ∧ clear (_sumPriceUpper s1) = clear (_sumPriceUpper s2)
  ∧ clear (_numPositions s1) = clear (_numPositions s2)
  ∧ clear (_twoTimesNumPositions s1) = clear (_twoTimesNumPositions s2)
  ∧ ∀ w, position_clear (position_at (_positions s1) w)
         = position_clear (position_at (_positions s2) w).
Proof.
  apply (submissions_commute (deploy 1000 1) 7 8 10 10 100 200 11 3 4 5).
  discriminate.
Defined.

(** ** The counter counts identities *)

Lemma positions_counted_deploy this deployer :
  positions_counted (deploy this deployer).
Proof.
  rewrite deploy_state. split; simpl.
  - intros u p Hp. by rewrite lookup_empty in Hp.
  - by rewrite map_size_empty.
Qed.

Lemma positions_counted_step s tx :
  positions_counted s → positions_counted (step s tx).
Proof.
  intros [Hex Hnum]. pose proof (step_cases s tx) as Hc.
  destruct (tx_call tx) as [l lo up pf | v pf | f t | o |].
  - destruct (verifies pf); [|by rewrite Hc].
    split.
    + intros u p. rewrite (spe_positions _ _ _ _ _ _ Hc).
      destruct (decide (msg_sender (tx_msg tx) = u)) as [<-|Hne].
      * rewrite lookup_insert_eq. by intros [= <-].
      * rewrite lookup_insert_ne by done. apply Hex.
    + rewrite (spe_numPositions _ _ _ _ _ _ Hc), (spe_positions _ _ _ _ _ _ Hc).
      unfold position_at.
      destruct (_positions s !! msg_sender (tx_msg tx)) as [p|] eqn:Hp; simpl.
      * rewrite (Hex _ _ Hp), Hnum. by erewrite map_size_insert_Some.
      * rewrite map_size_insert_None by done. cbn [clear]. rewrite Hnum.
        rewrite Nat2Z.inj_succ. unfold wrap32. Z.div_mod_to_equations. lia.
  - destruct (verifies pf); [|by rewrite Hc].
    split.
    + rewrite (sve_positions _ _ _ _ Hc). exact Hex.
    + by rewrite (sve_positions _ _ _ _ Hc), (sve_numPositions _ _ _ _ Hc).
  - destruct (decide _); rewrite Hc; done.
  - by rewrite Hc.
  - by rewrite Hc.
Qed.

Lemma positions_counted_run s txs :
  positions_counted s → positions_counted (run s txs).
Proof.
  revert s. induction txs as [|tx txs IH]; intros s Hs; [exact Hs|].
  change (run s (tx :: txs)) with (run (step s tx) txs).
  apply IH, positions_counted_step, Hs.
Qed.

Lemma position_stored this deployer txs u :
  is_Some (_positions (run (deploy this deployer) txs) !! u)
  ↔ is_Some (latest_submission u txs).
Proof.
  pose proof (positions_latest this deployer txs u) as Hm.
  destruct (positions_counted_run _ txs (positions_counted_deploy this deployer))
    as [Hex _].
  unfold position_at, position_matches in Hm.
  destruct (_positions (run (deploy this deployer) txs) !! u) as [p|] eqn:Hp;
    simpl in Hm.
  - specialize (Hex u p Hp).
    destruct (latest_submission u txs) as [[[l lo] up]|].
    + split; intros _; eauto.
    + congruence.
  - destruct (latest_submission u txs) as [[[l lo] up]|].
    + by destruct Hm.
    + split; intros [x Hx]; discriminate.
Qed.

(** X4: after any sequence of calls, [numPositions] is, modulo [2^32], the
    number of identities with a stored position, and the identities with a
    stored position are exactly those with an accepted submission; every
    stored position is marked as existing. *)
Theorem numPositions_counts_identities (this deployer : address)
    (txs : list Tx) :
  let s := run (deploy this deployer) txs in
  clear (_numPositions s) = wrap32 (Z.of_nat (size (_positions s)))
  ∧ (∀ u, u ∈ dom (_positions s) ↔ is_Some (latest_submission u txs))
  ∧ (∀ u p, _positions s !! u = Some p → exists_ p = true).
Proof.
  intros s. subst s.
  destruct (positions_counted_run _ txs (positions_counted_deploy this deployer))
    as [Hex Hnum].
  split; [exact Hnum|]. split; [|exact Hex].
  intros u. rewrite elem_of_dom. apply position_stored.
Qed.

(** ** The two suggestions count the qualifying signals *)

Lemma step_suggestions s tx :
  clear (_suggestedFeeRatio (step s tx))
  = (if qualifying tx then wrap32 (clear (_suggestedFeeRatio s) + 1)
     else clear (_suggestedFeeRatio s))
  ∧ clear (_suggestedTickSpacing (step s tx))
    = (if qualifying tx then wrap32 (clear (_suggestedTickSpacing s) + 1)
       else clear (_suggestedTickSpacing s)).
Proof.
  pose proof (step_cases s tx) as Hc. unfold qualifying.
  destruct (tx_call tx) as [l lo up pf | v pf | f t | o |].
  - destruct (verifies pf); [|by rewrite Hc].
    by rewrite (spe_suggestedFeeRatio _ _ _ _ _ _ Hc),
      (spe_suggestedTickSpacing _ _ _ _ _ _ Hc).
  - destruct (verifies pf); [|by rewrite Hc].
    rewrite (sve_suggestedFeeRatio _ _ _ _ Hc),
      (sve_suggestedTickSpacing _ _ _ _ Hc). cbn [clear andb].
    by destruct (50 <=? ext_clear v).
  - destruct (decide _); by rewrite Hc.
  - by rewrite Hc.
  - by rewrite Hc.
Qed.

Lemma run_suggestions s txs :
  clear (_suggestedFeeRatio (run s txs))
  = (if decide (count_qualifying txs = 0) then clear (_suggestedFeeRatio s)
     else wrap32 (clear (_suggestedFeeRatio s) + count_qualifying txs))
  ∧ clear (_suggestedTickSpacing (run s txs))
    = (if decide (count_qualifying txs = 0) then clear (_suggestedTickSpacing s)
       else wrap32 (clear (_suggestedTickSpacing s) + count_qualifying txs))
  ∧ 0 ≤ count_qualifying txs.
Proof.
  revert s. induction txs as [|tx txs IH]; intros s.
  - simpl. done.
  - change (run s (tx :: txs)) with (run (step s tx) txs).
    destruct (IH (step s tx)) as (Hf & Ht & Hpos). rewrite Hf, Ht.
    destruct (step_suggestions s tx) as [-> ->].
    cbn [count_qualifying].
    destruct (qualifying tx); repeat case_decide; try lia;
      (split; [|split]); try lia; try reflexivity;
      try (f_equal; lia);
      unfold wrap32; Z.div_mod_to_equations; lia.
Qed.

(** X5: after any sequence of calls the two suggestion fields hold the same
    plaintext, namely the number of accepted volatility submissions at or
    above the threshold, modulo [2^32]. *)
Theorem suggestions_count_signals (this deployer : address) (txs : list Tx) :
  let s := run (deploy this deployer) txs in
  clear (_suggestedFeeRatio s) = wrap32 (count_qualifying txs)
  ∧ clear (_suggestedTickSpacing s) = wrap32 (count_qualifying txs)
  ∧ clear (_suggestedFeeRatio s) = clear (_suggestedTickSpacing s).
Proof.
  intros s. subst s.
  destruct (run_suggestions (deploy this deployer) txs) as (Hf & Ht & Hpos).
  rewrite Hf, Ht, deploy_state. cbn [_suggestedFeeRatio _suggestedTickSpacing clear].
  case_decide as Hz; [rewrite Hz|]; done.
Qed.

(** ** Applied parameters *)

Lemma step_applied s tx :
  (appliedFeeRatio (step s tx), appliedTickSpacing (step s tx))
  = default (appliedFeeRatio s, appliedTickSpacing s) (applied_by (_owner s) tx).
Proof.
  pose proof (step_cases s tx) as Hc. unfold applied_by.
  destruct (tx_call tx) as [l lo up pf | v pf | f t | o |].
  - destruct (verifies pf); [|by rewrite Hc].
    by rewrite (spe_appliedFeeRatio _ _ _ _ _ _ Hc),
      (spe_appliedTickSpacing _ _ _ _ _ _ Hc).
  - destruct (verifies pf); [|by rewrite Hc].
    by rewrite (sve_appliedFeeRatio _ _ _ _ Hc),
      (sve_appliedTickSpacing _ _ _ _ Hc).
  - destruct (decide _) as [Hown|Hown]; rewrite Hc.
    + by rewrite bool_decide_eq_true_2.
    + by rewrite bool_decide_eq_false_2.
  - by rewrite Hc.
  - by rewrite Hc.
Qed.

Lemma run_applied s txs :
  (appliedFeeRatio (run s txs), appliedTickSpacing (run s txs))
  = default (appliedFeeRatio s, appliedTickSpacing s)
      (last (applied_values (_owner s) txs)).
Proof.
  revert s. induction txs as [|tx txs IH]; intros s; [done|].
  change (run s (tx :: txs)) with (run (step s tx) txs).
  rewrite IH, step_applied, step_owner. cbn [applied_values].
  destruct (applied_by (_owner s) tx) as [v|]; [|done].
  rewrite last_cons.
  by destruct (last (applied_values (next_owner (_owner s) tx) txs)).
Qed.

(** While the owner does not change, the calls that count are those of
    that one identity. *)
Lemma applied_values_constant o txs :
  Forall (λ tx, next_owner o tx = o) txs →
  applied_values o txs = omap (applied_by o) txs.
Proof.
  induction 1 as [|tx txs Htx _ IH]; [done|].
  cbn [applied_values]. rewrite Htx, IH.
  change (omap (applied_by o) (tx :: txs))
    with (match applied_by o tx with
          | Some v => v :: omap (applied_by o) txs
          | None => omap (applied_by o) txs
          end).
  reflexivity.
Qed.

(** X6: over any sequence of calls from any state, the applied parameters
    end as the two values of the most recent [applyParameters] call made by
    the identity that was the owner at the time of that call, and stay as
    they were if there was none (zero since deployment): calls of other
    identities, the two encrypted operations and changes of owner never
    change them; the owner itself changes only by an ownership call of the
    owner.  While the owner stays the same, the calls that count are the
    [applyParameters] calls of that identity. *)
Theorem applied_parameters_latest :
  (∀ s txs,
     (appliedFeeRatio (run s txs), appliedTickSpacing (run s txs))
     = default (appliedFeeRatio s, appliedTickSpacing s)
         (last (applied_values (_owner s) txs)))
  ∧ (∀ this deployer txs,
       (appliedFeeRatio (run (deploy this deployer) txs),
        appliedTickSpacing (run (deploy this deployer) txs))
       = default (0, 0) (last (applied_values deployer txs)))
  ∧ (∀ s txs, _owner (run s txs) = owner_after (_owner s) txs)
  ∧ (∀ s txs,
       Forall (λ tx, next_owner (_owner s) tx = _owner s) txs →
       (appliedFeeRatio (run s txs), appliedTickSpacing (run s txs))
       = default (appliedFeeRatio s, appliedTickSpacing s)
           (last (omap (applied_by (_owner s)) txs))).
Proof.
  split; [apply run_applied|]. split.
  { intros this deployer txs. rewrite run_applied. by rewrite deploy_state. }
  split; [apply run_owner|].
  intros s txs Hconst. rewrite run_applied.
  by rewrite (applied_values_constant _ _ Hconst).
Qed.

(** A new owner takes over the governance of the parameters: the call of
    the former owner after the handover is refused. *)
Example applied_parameters_after_handover :
  let s := run (deploy 1000 1)
             [mkApply 1 10 5 10; mkTransfer 1 11 9; mkApply 1 12 6 11;
              mkApply 9 13 7 12] in
  _owner s = 9%N ∧ appliedFeeRatio s = 7 ∧ appliedTickSpacing s = 12
  ∧ length (_actionHashes s) = 2%nat.
Proof. vm_compute. repeat split; reflexivity. Qed.

(** ** Who can read what *)

Lemma deploy_this this deployer : address_this (deploy this deployer) = this.
Proof. reflexivity. Qed.

Lemma deploy_owner this deployer : _owner (deploy this deployer) = deployer.
Proof. reflexivity. Qed.

Lemma readable_by_step s tx r e :
  readable_by s r e → readable_by (step s tx) r e.
Proof.
  destruct (step_frame s tx) as (_ & Hnext & Hold).
  destruct r as [r|]; [|done]. intros [Hlt Hal].
  split; [lia|]. by rewrite (Hold _ Hlt).
Qed.

(** A value the call leaves in storage is allocated and readable by exactly
    the three parties of the call. *)
Lemma written_readable s tx e :
  reachable s → handle e ∈ written s tx →
  readable_by (step s tx) (Some (three_parties s (msg_sender (tx_msg tx)))) e.
Proof.
  intros Hs Hin. pose proof (acl_allocated_reachable s Hs) as Hacl.
  pose proof (step_cases s tx) as Hc.
  assert (Hrule : regrant_rule s (step s tx) (msg_sender (tx_msg tx))
                    (written s tx)).
  { destruct (tx_call tx) as [l lo up pf | v pf | f t | o |] eqn:Hcall.
    - destruct (verifies pf) eqn:Hpf;
        [by apply (regrant_rule_position s tx l lo up pf)|].
      exfalso. unfold written in Hin. rewrite Hcall, Hpf in Hin.
      by apply elem_of_nil in Hin.
    - destruct (verifies pf) eqn:Hpf;
        [by apply (regrant_rule_volatility s tx v pf)|].
      exfalso. unfold written in Hin. rewrite Hcall, Hpf in Hin.
      by apply elem_of_nil in Hin.
    - exfalso. unfold written in Hin. rewrite Hcall in Hin.
      by apply elem_of_nil in Hin.
    - exfalso. unfold written in Hin. rewrite Hcall in Hin.
      by apply elem_of_nil in Hin.
    - exfalso. unfold written in Hin. rewrite Hcall in Hin.
      by apply elem_of_nil in Hin. }
  destruct Hrule as [Hw _]. destruct (Hw _ Hin) as [[_ Hlt] Hal].
  split; assumption.
Qed.

(** *** The values each kind of call leaves *)

Lemma submitter_effect s tx u :
  submitter tx = Some u →
  u = msg_sender (tx_msg tx)
  ∧ ∃ l lo up, submitPosition_effect (tx_msg tx) l lo up s (step s tx).
Proof.
  pose proof (step_cases s tx) as Hc. unfold submitter.
  destruct (tx_call tx) as [l lo up pf| | | |]; try done.
  destruct (verifies pf); [|done]. intros [= <-]. eauto.
Qed.

Lemma sums_granted s tx u :
  submitter tx = Some u →
  u = msg_sender (tx_msg tx)
  ∧ handle (_aggLiquidity (step s tx)) ∈ written s tx
  ∧ handle (_sumPriceLower (step s tx)) ∈ written s tx
  ∧ handle (_sumPriceUpper (step s tx)) ∈ written s tx.
Proof.
  unfold submitter, written.
  destruct (tx_call tx) as [l lo up pf| | | |]; try done.
  destruct (verifies pf); [|done]. intros [= <-]. cbv zeta.
  generalize (step s tx). intros s'.
  split; [done|]. repeat split; apply elem_of_app; left; solve_member.
Qed.

Lemma counters_granted s tx u :
  submitter tx = Some u →
  exists_ (position_at (_positions s) u) = false →
  handle (_numPositions (step s tx)) ∈ written s tx
  ∧ handle (_twoTimesNumPositions (step s tx)) ∈ written s tx.
Proof.
  unfold submitter, written.
  destruct (tx_call tx) as [l lo up pf| | | |]; try done.
  destruct (verifies pf); [|done]. intros [= <-] Hex. cbv zeta. rewrite Hex.
  generalize (step s tx). intros s'.
  split; apply elem_of_app; right; solve_member.
Qed.

Lemma position_granted s tx u v :
  submission_of u tx = Some v →
  v = msg_sender (tx_msg tx)
  ∧ handle (liquidity (position_at (_positions (step s tx)) u)) ∈ written s tx
  ∧ handle (priceLower (position_at (_positions (step s tx)) u)) ∈ written s tx
  ∧ handle (priceUpper (position_at (_positions (step s tx)) u)) ∈ written s tx.
Proof.
  unfold submission_of, submitted_by, written.
  destruct (tx_call tx) as [l lo up pf| | | |]; try done.
  case_bool_decide as Hu; [|done].
  destruct (verifies pf); [|done]. cbn [andb]. intros [= <-]. cbv zeta.
  rewrite Hu. generalize (step s tx). intros s'.
  split; [done|]. repeat split; apply elem_of_app; left; solve_member.
Qed.

Lemma suggestions_granted s tx u :
  signaller tx = Some u →
  u = msg_sender (tx_msg tx)
  ∧ handle (_suggestedFeeRatio (step s tx)) ∈ written s tx
  ∧ handle (_suggestedTickSpacing (step s tx)) ∈ written s tx.
Proof.
  unfold signaller, written.
  destruct (tx_call tx) as [|v pf| | |]; try done.
  destruct (verifies pf); [|done]. intros [= <-]. cbv zeta.
  generalize (step s tx). intros s'.
  split; [done|]. split; solve_member.
Qed.

(** What a call that is no accepted position submission, or no accepted
    volatility submission, leaves as it was. *)
Lemma step_kept s tx :
  (submitter tx = None →
     _positions (step s tx) = _positions s
     ∧ _aggLiquidity (step s tx) = _aggLiquidity s
     ∧ _sumPriceLower (step s tx) = _sumPriceLower s
     ∧ _sumPriceUpper (step s tx) = _sumPriceUpper s
     ∧ _numPositions (step s tx) = _numPositions s
     ∧ _twoTimesNumPositions (step s tx) = _twoTimesNumPositions s)
  ∧ (signaller tx = None →
       _suggestedFeeRatio (step s tx) = _suggestedFeeRatio s
       ∧ _suggestedTickSpacing (step s tx) = _suggestedTickSpacing s).
Proof.
  pose proof (step_cases s tx) as Hc. unfold submitter, signaller.
  destruct (tx_call tx) as [l lo up pf | v pf | f t | o |].
  - destruct (verifies pf); [|by rewrite Hc].
    split; [done|]. intros _. by destruct Hc.
  - destruct (verifies pf); [|by rewrite Hc].
    split; [|done]. intros _. destruct Hc. repeat split; assumption.
  - destruct (decide _); by rewrite Hc.
  - by rewrite Hc.
  - by rewrite Hc.
Qed.

Lemma position_kept s tx u :
  submission_of u tx = None →
  position_at (_positions (step s tx)) u = position_at (_positions s) u.
Proof.
  intros Hsel.
  pose proof (submitted_by_outcome u s tx _ (step_outcome s tx)) as Hout.
  unfold submission_of in Hsel. by destruct (submitted_by u tx).
Qed.

(** *** Readers of a stored value along an execution *)

Section Readers.

  (** A stored encrypted value and the calls that replace it. *)
  Variable field : State → euint32.

  Variable sel : Tx → option address.

  Hypothesis granted : ∀ s tx u,
    sel tx = Some u →
    u = msg_sender (tx_msg tx) ∧ handle (field (step s tx)) ∈ written s tx.

  Hypothesis kept : ∀ s tx, sel tx = None → field (step s tx) = field s.

Lemma readers_run s txs r :
  reachable s → readable_by s r (field s) →
  readable_by (run s txs)
    (match last (grants sel (_owner s) txs) with
     | Some g => Some (parties (address_this s) g)
     | None => r
     end)
    (field (run s txs)).
Proof.
  revert s r. induction txs as [|tx txs IH]; intros s r Hs Hr; [exact Hr|].
  change (run s (tx :: txs)) with (run (step s tx) txs).
  pose proof (reachable_step s tx Hs) as Hs'.
  specialize (IH (step s tx)).
  rewrite step_owner, (proj1 (step_frame s tx)) in IH.
  cbn [grants]. destruct (sel tx) as [u|] eqn:Hsel.
  - destruct (granted s tx u Hsel) as [-> Hin].
    specialize (IH _ Hs' (written_readable s tx _ Hs Hin)).
    rewrite last_cons.
    destruct (last (grants sel (next_owner (_owner s) tx) txs)); exact IH.
  - apply IH; [exact Hs'|]. rewrite (kept s tx Hsel).
    by apply readable_by_step.
Qed.

Lemma readers_deploy this deployer txs r :
  readable_by (deploy this deployer) r (field (deploy this deployer)) →
  readable_by (run (deploy this deployer) txs)
    (match last (grants sel deployer txs) with
     | Some g => Some (parties this g)
     | None => r
     end)
    (field (run (deploy this deployer) txs)).
Proof.
  intros Hr.
  pose proof (readers_run (deploy this deployer) txs r
                (reachable_deploy this deployer) Hr) as H.
  by rewrite deploy_owner, deploy_this in H.
Qed.

End Readers.

(** X7: after any sequence of calls, the three fields of the position of an
    identity are never-written slots if it has no accepted submission;
    otherwise each is readable by exactly the contract, the identity itself
    and the owner at the time of its most recent accepted submission.  No
    call of anyone else adds a reader, and neither does a change of owner:
    a later owner cannot read it until the identity submits again. *)
Theorem positions_stay_private (this deployer : address) (txs : list Tx)
    (u : address) :
  let s := run (deploy this deployer) txs in
  let p := position_at (_positions s) u in
  let readers := parties this <$> last (grants (submission_of u) deployer txs) in
  readable_by s readers (liquidity p)
  ∧ readable_by s readers (priceLower p)
  ∧ readable_by s readers (priceUpper p).
Proof.
  cbv zeta.
  pose proof (readers_deploy (λ s, liquidity (position_at (_positions s) u))
                (submission_of u)) as Hl.
  pose proof (readers_deploy (λ s, priceLower (position_at (_positions s) u))
                (submission_of u)) as Hlo.
  pose proof (readers_deploy (λ s, priceUpper (position_at (_positions s) u))
                (submission_of u)) as Hup.
  cbv beta in Hl, Hlo, Hup.
  specialize (Hl (λ s tx v H, conj (proj1 (position_granted s tx u v H))
                                (proj1 (proj2 (position_granted s tx u v H))))).
  specialize (Hlo (λ s tx v H,
                     conj (proj1 (position_granted s tx u v H))
                       (proj1 (proj2 (proj2 (position_granted s tx u v H)))))).
  specialize (Hup (λ s tx v H,
                     conj (proj1 (position_granted s tx u v H))
                       (proj2 (proj2 (proj2 (position_granted s tx u v H)))))).
  specialize (Hl (λ s tx H, f_equal liquidity (position_kept s tx u H))).
  specialize (Hlo (λ s tx H, f_equal priceLower (position_kept s tx u H))).
  specialize (Hup (λ s tx H, f_equal priceUpper (position_kept s tx u H))).
  specialize (Hl this deployer txs None eq_refl).
  specialize (Hlo this deployer txs None eq_refl).
  specialize (Hup this deployer txs None eq_refl).
  destruct (last (grants (submission_of u) deployer txs));
    exact (conj Hl (conj Hlo Hup)).
Qed.

(** X8: after any sequence of calls, the three sums are never-written slots
    if no submission was accepted yet; otherwise each is readable by exactly
    the contract, the caller of the most recent accepted submission and the
    owner at the time of that call.  An identity that submitted earlier is
    no longer a reader of the current sums, and an owner that took over
    since is not yet one. *)
Theorem sums_readers (this deployer : address) (txs : list Tx) :
  let s := run (deploy this deployer) txs in
  let readers := parties this <$> last (grants submitter deployer txs) in
  readable_by s readers (_aggLiquidity s)
  ∧ readable_by s readers (_sumPriceLower s)
  ∧ readable_by s readers (_sumPriceUpper s).
Proof.
  cbv zeta.
  pose proof (readers_deploy _aggLiquidity submitter) as Ha.
  pose proof (readers_deploy _sumPriceLower submitter) as Hlo.
  pose proof (readers_deploy _sumPriceUpper submitter) as Hup.
  specialize (Ha (λ s tx v H, conj (proj1 (sums_granted s tx v H))
                                (proj1 (proj2 (sums_granted s tx v H))))).
  specialize (Hlo (λ s tx v H,
                     conj (proj1 (sums_granted s tx v H))
                       (proj1 (proj2 (proj2 (sums_granted s tx v H)))))).
  specialize (Hup (λ s tx v H,
                     conj (proj1 (sums_granted s tx v H))
                       (proj2 (proj2 (proj2 (sums_granted s tx v H)))))).
  specialize (Ha (λ s tx H, proj1 (proj2 (proj1 (step_kept s tx) H)))).
  specialize (Hlo (λ s tx H,
                     proj1 (proj2 (proj2 (proj1 (step_kept s tx) H))))).
  specialize (Hup (λ s tx H,
                     proj1 (proj2 (proj2 (proj2 (proj1 (step_kept s tx) H)))))).
  specialize (Ha this deployer txs None eq_refl).
  specialize (Hlo this deployer txs None eq_refl).
  specialize (Hup this deployer txs None eq_refl).
  destruct (last (grants submitter deployer txs));
    exact (conj Ha (conj Hlo Hup)).
Qed.

(** X10: after any sequence of calls, each of the two suggestion fields is
    readable by the contract alone until a volatility submission is
    accepted, and from then on by exactly the contract, the caller of the
    most recent accepted volatility submission and the owner at the time of
    that call. *)
Theorem suggestions_readers (this deployer : address) (txs : list Tx) :
  let s := run (deploy this deployer) txs in
  let readers :=
    match last (grants signaller deployer txs) with
    | Some g => parties this g
    | None => {[this]}
    end in
  readable_by s (Some readers) (_suggestedFeeRatio s)
  ∧ readable_by s (Some readers) (_suggestedTickSpacing s).
Proof.
  cbv zeta.
  pose proof (readers_deploy _suggestedFeeRatio signaller) as Hf.
  pose proof (readers_deploy _suggestedTickSpacing signaller) as Ht.
  specialize (Hf (λ s tx v H, conj (proj1 (suggestions_granted s tx v H))
                                (proj1 (proj2 (suggestions_granted s tx v H))))).
  specialize (Ht (λ s tx v H, conj (proj1 (suggestions_granted s tx v H))
                                (proj2 (proj2 (suggestions_granted s tx v H))))).
  specialize (Hf (λ s tx H, proj1 (proj2 (step_kept s tx) H))).
  specialize (Ht (λ s tx H, proj2 (proj2 (step_kept s tx) H))).
  destruct (constructor_grants this deployer) as [Gf Gt]. cbv zeta in Gf, Gt.
  assert (Hnext : (handle (_suggestedFeeRatio (deploy this deployer))
                   < next_handle (fhe (deploy this deployer)))%N
                  ∧ (handle (_suggestedTickSpacing (deploy this deployer))
                     < next_handle (fhe (deploy this deployer)))%N)
    by (rewrite deploy_state; cbn; lia).
  specialize (Hf this deployer txs (Some {[this]}) (conj (proj1 Hnext) Gf)).
  specialize (Ht this deployer txs (Some {[this]}) (conj (proj2 Hnext) Gt)).
  destruct (last (grants signaller deployer txs)); exact (conj Hf Ht).
Qed.

Lemma counters_readers_run s txs r :
  reachable s → positions_counted s →
  readable_by s r (_numPositions s) ∧ readable_by s r (_twoTimesNumPositions s) →
  let readers :=
    match last (newcomers (dom (_positions s)) (_owner s) txs) with
    | Some g => Some (parties (address_this s) g)
    | None => r
    end in
  readable_by (run s txs) readers (_numPositions (run s txs))
  ∧ readable_by (run s txs) readers (_twoTimesNumPositions (run s txs)).
Proof.
  cbv zeta. revert s r.
  induction txs as [|tx txs IH]; intros s r Hs Hcnt [Hn Ht]; [done|].
  change (run s (tx :: txs)) with (run (step s tx) txs).
  pose proof (reachable_step s tx Hs) as Hs'.
  pose proof (positions_counted_step s tx Hcnt) as Hcnt'.
  apply (readable_by_step s tx) in Hn, Ht.
  specialize (IH (step s tx)).
  rewrite step_owner, (proj1 (step_frame s tx)) in IH.
  cbn [newcomers]. destruct (submitter tx) as [u|] eqn:Hsub.
  - destruct (submitter_effect s tx u Hsub) as (Hu & l & lo & up & Heff).
    pose proof (spe_positions _ _ _ _ _ _ Heff) as Hpos.
    pose proof (spe_numPositions _ _ _ _ _ _ Heff) as Hnum.
    pose proof (spe_twoTimesNumPositions _ _ _ _ _ _ Heff) as Htwo.
    rewrite <- Hu in Hpos, Hnum, Htwo.
    assert (Hdom : dom (_positions (step s tx)) = {[u]} ∪ dom (_positions s))
      by (by rewrite Hpos, dom_insert_L).
    destruct (decide (u ∈ dom (_positions s))) as [Hin|Hnin].
    + pose proof Hin as Hin'. apply elem_of_dom in Hin' as [p Hp].
      assert (Hex : exists_ (position_at (_positions s) u) = true).
      { unfold position_at. rewrite Hp. exact (proj1 Hcnt u p Hp). }
      rewrite Hex in Hnum, Htwo.
      rewrite Hdom, (subseteq_union_1_L {[u]} (dom (_positions s))),
        Hnum, Htwo in IH by (by apply singleton_subseteq_l).
      exact (IH r Hs' Hcnt' (conj Hn Ht)).
    + assert (Hex : exists_ (position_at (_positions s) u) = false).
      { unfold position_at. apply not_elem_of_dom in Hnin. by rewrite Hnin. }
      destruct (counters_granted s tx u Hsub Hex) as [Gn Gt].
      apply (written_readable s tx _ Hs) in Gn, Gt. rewrite <- Hu in Gn, Gt.
      rewrite Hdom in IH.
      specialize (IH _ Hs' Hcnt' (conj Gn Gt)).
      rewrite last_cons.
      destruct (last (newcomers ({[u]} ∪ dom (_positions s))
                        (next_owner (_owner s) tx) txs)); exact IH.
  - destruct (proj1 (step_kept s tx) Hsub) as (Hpos & _ & _ & _ & Hnum & Htwo).
    rewrite Hpos, Hnum, Htwo in IH.
    exact (IH r Hs' Hcnt' (conj Hn Ht)).
Qed.

(** X9: the two counters are never-written slots until the first accepted
    submission; afterwards each is readable by exactly the contract, the
    most recent identity whose accepted submission was its first, and the
    owner at the time of that submission.  A resubmission re-grants the
    sums but not the counters. *)
Theorem counters_readers (this deployer : address) (txs : list Tx) :
  let s := run (deploy this deployer) txs in
  let readers := parties this <$> last (newcomers ∅ deployer txs) in
  readable_by s readers (_numPositions s)
  ∧ readable_by s readers (_twoTimesNumPositions s).
Proof.
  cbv zeta.
  pose proof (counters_readers_run (deploy this deployer) txs None
                (reachable_deploy this deployer)
                (positions_counted_deploy this deployer)) as H.
  cbv zeta in H.
  assert (Hd : dom (_positions (deploy this deployer)) = (∅ : gset N))
    by (rewrite deploy_state; apply dom_empty_L).
  rewrite Hd, deploy_owner, deploy_this in H.
  specialize (H (conj eq_refl eq_refl)).
  destruct (last (newcomers ∅ deployer txs)); exact H.
Qed.

(** A resubmission leaves the counters with the readers of the last
    newcomer: identity 7 can read the sums but not the counters. *)
Example resubmitter_reads_sums_not_counters :
  let s := run (deploy 1000 1)
             [mkSubmit 7 10 10 100 200; mkSubmit 8 11 3 4 5;
              mkSubmit 7 12 15 90 210] in
  bool_decide (7%N ∈ allowed (fhe s) (handle (_aggLiquidity s))) = true
  ∧ bool_decide (7%N ∈ allowed (fhe s) (handle (_twoTimesNumPositions s)))
    = false.
Proof. vm_compute. split; reflexivity. Qed.

(** A change of owner grants nothing: after the handover to identity 9 and
    one more submission of identity 7, the new owner reads the sums and the
    position of 7, written since, but neither the counters nor the
    suggestions, which the former owner still reads. *)
Example new_owner_reads_what_is_written_since :
  let s := run (deploy 1000 1)
             [mkSubmit 7 10 10 100 200; mkVolatility 8 11 60;
              mkTransfer 1 12 9; mkSubmit 7 13 15 90 210] in
  let reads (a : address) (e : euint32) :=
    bool_decide (a ∈ allowed (fhe s) (handle e)) in
  _owner s = 9%N
  ∧ reads 9%N (_aggLiquidity s) = true
  ∧ reads 9%N (liquidity (position_at (_positions s) 7)) = true
  ∧ reads 9%N (_numPositions s) = false
  ∧ reads 9%N (_suggestedFeeRatio s) = false
  ∧ reads 1%N (_aggLiquidity s) = false
  ∧ reads 1%N (_numPositions s) = true
  ∧ reads 1%N (_suggestedFeeRatio s) = true.
Proof. vm_compute. repeat split; reflexivity. Qed.

(** ** The audit trail only grows *)

(** X11: an entry of the audit trail is never changed or removed: once
    [getActionAt] returns a digest at an index, it returns the same digest at
    that index after any further sequence of calls, and the length never
    decreases and grows by at most one per call. *)
Theorem audit_trail_append_only (s : State) (txs : list Tx) (i : nat)
    (h : bytes32) :
  _actionHashes s !! i = Some h →
  getActionAt (N.of_nat i) (run s txs) = Ok (h, run s txs)
  ∧ (length (_actionHashes s) ≤ length (_actionHashes (run s txs))
     ≤ length (_actionHashes s) + length txs)%nat.
Proof.
  intros Hi. rewrite getActionAt_spec, Nat2N.id, actionHashes_run.
  rewrite (lookup_app_l_Some _ _ _ _ Hi). split; [done|].
  rewrite length_app.
  pose proof (length_omap_le tx_digest (completed s txs)).
  pose proof (sublist_length _ _ (completed_sublist s txs)). lia.
Qed.

(** [audit_trail_append_only] for the first entry of a log of two. *)
Lemma audit_trail_append_only_witness :
  let s := run (deploy 1000 1) [mkSubmit 7 10 10 100 200; mkVolatility 8 11 60] in
  let txs := [mkApply 1 12 5 10; mkSubmit 7 13 1 2 3] in
  getActionAt 0 (run s txs) = Ok (action_digest "SUBMIT_POSITION" 7 10, run s txs)
  ∧ (length (_actionHashes s) ≤ length (_actionHashes (run s txs))
     ≤ length (_actionHashes s) + length txs)%nat.
Proof.
  apply (audit_trail_append_only
           (run (deploy 1000 1) [mkSubmit 7 10 10 100 200; mkVolatility 8 11 60])
           [mkApply 1 12 5 10; mkSubmit 7 13 1 2 3] 0).
  vm_compute. reflexivity.
Defined.

(** ** The packed digest input is unambiguous *)

Lemma byte_of_Z_to_N z : Z.of_N (Byte.to_N (byte_of_Z z)) = z mod 256.
Proof.
  unfold byte_of_Z.
  assert (Hr : 0 ≤ z mod 256 < 256) by (apply Z.mod_pos_bound; lia).
  destruct (Byte.of_N (Z.to_N (z mod 256))) as [b|] eqn:Hb; simpl.
  - apply Byte.to_of_N in Hb. rewrite Hb. lia.
  - apply Byte.of_N_None_iff in Hb. lia.
Qed.

Lemma be_decode_snoc bs b :
  be_decode (bs ++ [b]) = be_decode bs * 256 + Z.of_N (Byte.to_N b).
Proof. unfold be_decode. by rewrite foldl_app. Qed.

Lemma be_bytes_length n z : length (be_bytes n z) = n.
Proof.
  revert z. induction n as [|n IH]; intros z; [done|].
  simpl. rewrite length_app, IH. simpl. lia.
Qed.

(** Decoding the [n]-byte big-endian encoding gives the number back,
    reduced to [n] bytes. *)
Lemma be_decode_be_bytes n z :
  be_decode (be_bytes n z) = z mod 256 ^ Z.of_nat n.
Proof.
  revert z. induction n as [|n IH]; intros z.
  - simpl. by rewrite Z.mod_1_r.
  - cbn [be_bytes]. rewrite be_decode_snoc, IH, byte_of_Z_to_N.
    rewrite Nat2Z.inj_succ, Z.pow_succ_r by lia.
    assert (Hp : 0 < 256 ^ Z.of_nat n) by (apply Z.pow_pos_nonneg; lia).
    rewrite Z.rem_mul_r by lia. lia.
Qed.

Lemma action_tag_length c c' tag tag' :
  action_tag c = Some tag → action_tag c' = Some tag' →
  length (String.list_byte_of_string tag)
  = length (String.list_byte_of_string tag') →
  tag = tag'.
Proof.
  destruct c, c'; simpl; intros [= <-] [= <-] H;
    try reflexivity; discriminate.
Qed.

(** X12: the bytes hashed for an audit entry determine the entry's tag,
    caller and timestamp: two recorded calls whose packed inputs are equal
    have the same tag, the same caller (an address below [2^160]) and the
    same timestamp (below [2^256]). *)
Theorem packed_input_unambiguous (c c' : Call) (tag tag' : string)
    (sender sender' : address) (t t' : Z) :
  action_tag c = Some tag → action_tag c' = Some tag' →
  (sender < 2 ^ 160)%N → (sender' < 2 ^ 160)%N →
  0 ≤ t < 2 ^ 256 → 0 ≤ t' < 2 ^ 256 →
  abi_encodePacked tag sender t = abi_encodePacked tag' sender' t' →
  tag = tag' ∧ sender = sender' ∧ t = t'.
Proof.
  intros Hc Hc' Hs Hs' Ht Ht' Heq. unfold abi_encodePacked in Heq.
  assert (Hlen : length (String.list_byte_of_string tag)
                 = length (String.list_byte_of_string tag')).
  { apply (f_equal length) in Heq.
    rewrite !length_app, !be_bytes_length in Heq. lia. }
  pose proof (action_tag_length c c' tag tag' Hc Hc' Hlen) as Htag.
  split; [exact Htag|].
  rewrite Htag in Heq. apply app_inv_head in Heq.
  apply app_inj_1 in Heq as [Hse Hte]; [|by rewrite !be_bytes_length].
  apply (f_equal be_decode) in Hse, Hte.
  rewrite !be_decode_be_bytes in Hse, Hte.
  assert (H160 : Z.of_N (2 ^ 160) = 256 ^ Z.of_nat 20) by reflexivity.
  assert (H256 : 2 ^ 256 = 256 ^ Z.of_nat 32) by reflexivity.
  rewrite !Z.mod_small in Hse, Hte by lia. split; [lia | exact Hte].
Qed.

(** [packed_input_unambiguous] on two calls with the same tag, caller and
    timestamp and different values. *)
Lemma packed_input_unambiguous_witness :
  "SUBMIT_POSITION" = "SUBMIT_POSITION" ∧ 7%N = 7%N ∧ 1700000000 = 1700000000.
Proof.
  apply (packed_input_unambiguous
           (SubmitPosition {| ext_clear := 1 |} {| ext_clear := 2 |}
              {| ext_clear := 3 |} {| verifies := true |})
           (SubmitPosition {| ext_clear := 4 |} {| ext_clear := 5 |}
              {| ext_clear := 6 |} {| verifies := true |})
           "SUBMIT_POSITION" "SUBMIT_POSITION"
           7 7 1700000000 1700000000); try reflexivity; split;
    try discriminate; reflexivity.
Defined.

(** ** A position belongs to its identity *)

Lemma step_positions_other s tx u :
  msg_sender (tx_msg tx) ≠ u →
  _positions (step s tx) !! u = _positions s !! u.
Proof.
  intros Hne. pose proof (step_cases s tx) as Hc.
  destruct (tx_call tx) as [l lo up pf | v pf | f t | o |].
  - destruct (verifies pf); [|by rewrite Hc].
    rewrite (spe_positions _ _ _ _ _ _ Hc). by apply lookup_insert_ne.
  - destruct (verifies pf); [|by rewrite Hc].
    by rewrite (sve_positions _ _ _ _ Hc).
  - destruct (decide _); by rewrite Hc.
  - by rewrite Hc.
  - by rewrite Hc.
Qed.

Lemma step_exists s tx u :
  exists_ (position_at (_positions s) u) = true →
  exists_ (position_at (_positions (step s tx)) u) = true.
Proof.
  intros Hex. destruct (decide (msg_sender (tx_msg tx) = u)) as [<-|Hne].
  - pose proof (step_cases s tx) as Hc.
    destruct (tx_call tx) as [l lo up pf | v pf | f t | o |].
    + destruct (verifies pf); [|by rewrite Hc].
      rewrite (spe_positions _ _ _ _ _ _ Hc). by rewrite position_at_insert_eq.
    + destruct (verifies pf); [|by rewrite Hc].
      by rewrite (sve_positions _ _ _ _ Hc).
    + destruct (decide _); by rewrite Hc.
    + by rewrite Hc.
    + by rewrite Hc.
  - unfold position_at in *. by rewrite step_positions_other.
Qed.

(** X13: calls made by other identities never touch the stored position of
    an identity: over any sequence of calls none of which is sent by [u],
    the position of [u] keeps its handles and its flag, and [getMyPosition]
    called by [u] returns the same four values before and after. *)
Theorem position_untouched_by_others (s : State) (txs : list Tx)
    (u : address) (t t' : Z) :
  Forall (λ tx, msg_sender (tx_msg tx) ≠ u) txs →
  _positions (run s txs) !! u = _positions s !! u
  ∧ ∃ r, getMyPosition {| msg_sender := u; block_timestamp := t |} s = Ok (r, s)
         ∧ getMyPosition {| msg_sender := u; block_timestamp := t' |} (run s txs)
           = Ok (r, run s txs).
Proof.
  intros Hall.
  assert (Hp : _positions (run s txs) !! u = _positions s !! u).
  { revert s. induction Hall as [|tx txs Htx _ IH]; intros s; [done|].
    change (run s (tx :: txs)) with (run (step s tx) txs).
    rewrite IH. by apply step_positions_other. }
  split; [exact Hp|].
  eexists. split; [apply views_pure|].
  rewrite (proj2 (proj2 (views_pure (run s txs) _))).
  cbn [msg_sender]. unfold position_at. by rewrite Hp.
Qed.

(** [position_untouched_by_others] for identity 7 while identity 8 submits
    and the owner applies parameters. *)
Lemma position_untouched_by_others_witness :
  let s := run (deploy 1000 1) [mkSubmit 7 10 10 100 200] in
  let txs := [mkSubmit 8 11 3 4 5; mkApply 1 12 5 10] in
  _positions (run s txs) !! 7%N = _positions s !! 7%N
  ∧ ∃ r, getMyPosition {| msg_sender := 7; block_timestamp := 10 |} s = Ok (r, s)
         ∧ getMyPosition {| msg_sender := 7; block_timestamp := 13 |} (run s txs)
           = Ok (r, run s txs).
Proof.
  apply (position_untouched_by_others
           (run (deploy 1000 1) [mkSubmit 7 10 10 100 200])
           [mkSubmit 8 11 3 4 5; mkApply 1 12 5 10] 7 10 13).
  repeat constructor; discriminate.
Defined.

(** X14: a position is never deleted: once the position of an identity
    exists, it exists after any further sequence of calls. *)
Theorem position_never_deleted (s : State) (txs : list Tx) (u : address) :
  exists_ (position_at (_positions s) u) = true →
  exists_ (position_at (_positions (run s txs)) u) = true.
Proof.
  revert s. induction txs as [|tx txs IH]; intros s Hex; [exact Hex|].
  change (run s (tx :: txs)) with (run (step s tx) txs).
  apply IH, step_exists, Hex.
Qed.

(** [position_never_deleted] for identity 7 through a resubmission and calls
    of others. *)
Lemma position_never_deleted_witness :
  exists_ (position_at
             (_positions
                (run (run (deploy 1000 1) [mkSubmit 7 10 10 100 200])
                   [mkSubmit 8 11 3 4 5; mkSubmit 7 12 1 2 3]))
             7) = true.
Proof.
  apply (position_never_deleted
           (run (deploy 1000 1) [mkSubmit 7 10 10 100 200])
           [mkSubmit 8 11 3 4 5; mkSubmit 7 12 1 2 3] 7).
  vm_compute. reflexivity.
Defined.

(** X15: for an identity without any accepted submission, [getMyPosition]
    returns three never-written handles and the flag [false], and leaves the
    storage as it is. *)
Theorem getMyPosition_unknown (this deployer : address) (txs : list Tx)
    (u : address) (t : Z) :
  latest_submission u txs = None →
  let s := run (deploy this deployer) txs in
  getMyPosition {| msg_sender := u; block_timestamp := t |} s
  = Ok ((uninitialized, uninitialized, uninitialized, false), s).
Proof.
  intros Hnone s. subst s.
  rewrite (proj2 (proj2 (views_pure _ _))). cbn [msg_sender].
  assert (Hp : _positions (run (deploy this deployer) txs) !! u = None).
  { apply eq_None_not_Some. rewrite position_stored, Hnone.
    by intros [x Hx]. }
  unfold position_at. by rewrite Hp.
Qed.

(** [getMyPosition_unknown] for identity 9 after calls of identities 7
    and 8. *)
Lemma getMyPosition_unknown_witness :
  let s := run (deploy 1000 1) [mkSubmit 7 10 10 100 200; mkVolatility 8 11 60] in
  getMyPosition {| msg_sender := 9; block_timestamp := 12 |} s
  = Ok ((uninitialized, uninitialized, uninitialized, false), s).
Proof.
  apply (getMyPosition_unknown 1000 1
           [mkSubmit 7 10 10 100 200; mkVolatility 8 11 60] 9 12).
  vm_compute. reflexivity.
Defined.
